(** * proplot.internals: settings tables and argument helpers

    A shallow embedding of two modules of proplot:

    - [proplot/internals/defaults.py]: the child-settings table
      [_rc_children], the synonym table [_rc_synonyms] with the module-level
      loop that folds every synonym group into [_rc_children], and the two
      migration tables [_rc_proplot_removed] and [_rc_proplot_renamed];
    - [proplot/internals/__init__.py]: [_not_none] and [_kwargs_to_args].

    Python dictionaries that are only looked up by key are [gmap]s; keyword
    dictionaries, whose iteration order decides results, are ordered
    association lists.  Setting names are [string]s. *)

From stdpp Require Import gmap strings list fin_maps sorting.

Open Scope string_scope.
Open Scope list_scope.

(** ** defaults.py *)
Module Defaults.

(** A Python dict literal: later bindings of a key replace earlier ones. *)
Definition dict_literal {V} (items : list (string * V)) : gmap string V :=
  foldl (λ d kv, <[kv.1 := kv.2]> d) ∅ items.

(** [d.get(k, ())] on a dict of tuples. *)
Definition children_get (d : gmap string (list string)) (k : string) : list string :=
  default [] (d !! k).

(** [tuple(sorted(s))] for a set of strings [s]: the ascending sequence of
    its elements (strings compare character by character). *)
Definition sorted (s : gset string) : list string :=
  merge_sort String.le (elements s).

(** *** The child-settings table *)

(** The literal [_rc_children = {...}], before the version-dependent
    additions. *)
Definition _rc_children_literal : gmap string (list string) :=
  dict_literal [
    ("font.smallsize",
      ["tick.labelsize"; "xtick.labelsize"; "ytick.labelsize";
       "axes.labelsize"; "legend.fontsize"; "grid.labelsize"]);
    ("font.largesize",
      ["abc.size"; "figure.titlesize"; "suptitle.size"; "axes.titlesize"; "title.size";
       "leftlabel.size"; "toplabel.size"; "rightlabel.size"; "bottomlabel.size"]);
    ("meta.color",
      ["axes.edgecolor"; "axes.labelcolor"; "legend.edgecolor"; "colorbar.edgecolor";
       "tick.labelcolor"; "hatch.color"; "xtick.color"; "ytick.color"]);
    ("meta.width",
      ["axes.linewidth"; "tick.width"; "tick.linewidth"; "xtick.major.width";
       "ytick.major.width"; "grid.width"; "grid.linewidth"]);
    ("axes.margin", ["axes.xmargin"; "axes.ymargin"]);
    ("grid.color", ["gridminor.color"; "grid.labelcolor"]);
    ("grid.alpha", ["gridminor.alpha"]);
    ("grid.linewidth", ["gridminor.linewidth"]);
    ("grid.linestyle", ["gridminor.linestyle"]);
    ("tick.color", ["xtick.color"; "ytick.color"]);
    ("tick.dir", ["xtick.direction"; "ytick.direction"]);
    ("tick.len", ["xtick.major.size"; "ytick.major.size"]);
    ("tick.minor", ["xtick.minor.visible"; "ytick.minor.visible"]);
    ("tick.pad", ["xtick.major.pad"; "xtick.minor.pad"; "ytick.major.pad"; "ytick.minor.pad"]);
    ("tick.width", ["xtick.major.width"; "ytick.major.width"]);
    ("tick.labelsize", ["xtick.labelsize"; "ytick.labelsize"])
  ].

(** What the module reads from matplotlib's [rcParamsDefault]: whether the
    keys ['axes.titlecolor'] (matplotlib >= 3.2) and ['xtick.labelcolor']
    (matplotlib >= 3.4) exist. *)
Record mpl_defaults := MplDefaults {
  has_axes_titlecolor : bool;
  has_xtick_labelcolor : bool
}.

(** The [if ... in _rc_matplotlib_default:] blocks, as far as they touch
    [_rc_children]. *)
Definition _rc_children (mpl : mpl_defaults) : gmap string (list string) :=
  let d0 := _rc_children_literal in
  let d1 :=
    if has_axes_titlecolor mpl
    then <["title.color" := ["axes.titlecolor"]]> d0
    else d0 in
  if has_xtick_labelcolor mpl
  then
    let d2 := <["tick.labelcolor" := ["xtick.labelcolor"; "ytick.labelcolor"]]> d1 in
    let d3 := <["grid.labelcolor" := ["xtick.labelcolor"; "ytick.labelcolor"]]> d2 in
    (* _rc_children['meta.color'] += (...): a KeyError when the key is
       missing, which the literal rules out *)
    alter (λ t, t ++ ["xtick.labelcolor"; "ytick.labelcolor"]) "meta.color" d3
  else d1.

(** *** The synonym table and the loop that folds it into the children *)

Definition _rc_synonyms : list (list string) := [
    ["cmap"; "image.cmap"; "cmap.sequential"];
    ["cmap.lut"; "image.lut"];
    ["font.name"; "font.family"];
    ["font.small"; "font.smallsize"];
    ["font.large"; "font.largesize"];
    ["formatter.limits"; "axes.formatter.limits"];
    ["formatter.use_locale"; "axes.formatter.use_locale"];
    ["formatter.use_mathtext"; "axes.formatter.use_mathtext"];
    ["formatter.min_exponent"; "axes.formatter.min_exponent"];
    ["formatter.use_offset"; "axes.formatter.useoffset"];
    ["formatter.offset_threshold"; "axes.formatter.offset_threshold"];
    ["grid.below"; "axes.axisbelow"];
    ["grid.labelpad"; "grid.pad"];
    ["grid.linewidth"; "grid.width"];
    ["grid.linestyle"; "grid.style"];
    ["gridminor.linewidth"; "gridminor.width"];
    ["gridminor.linestyle"; "gridminor.style"];
    ["label.color"; "axes.labelcolor"];
    ["label.pad"; "axes.labelpad"];
    ["label.size"; "axes.labelsize"];
    ["label.weight"; "axes.labelweight"];
    ["margin"; "axes.margin"];
    ["meta.width"; "meta.linewidth"];
    ["meta.color"; "meta.edgecolor"];
    ["tick.labelpad"; "tick.pad"];
    ["tick.labelsize"; "grid.labelsize"];
    ["tick.labelcolor"; "grid.labelcolor"];
    ["tick.labelweight"; "grid.labelweight"];
    ["tick.linewidth"; "tick.width"];
    ["title.pad"; "axes.titlepad"];
    ["title.size"; "axes.titlesize"];
    ["title.weight"; "axes.titleweight"]
  ].

(** [{_ for k in _keys for _ in {k, *_rc_children.get(k, ())}}]: every key of
    the group together with its current children. *)
Definition group_union (d : gmap string (list string)) (_keys : list string) : gset string :=
  ⋃ ((λ k, {[k]} ∪ list_to_set (children_get d k)) <$> _keys).

(** [_set = {...} - {_key}] *)
Definition _set (d : gmap string (list string)) (_keys : list string) (_key : string)
  : gset string :=
  group_union d _keys ∖ {[_key]}.

(** The body of the inner loop: [_rc_children[_key] = tuple(sorted(_set))].
    The table is updated in place, so the next key of the group reads the
    entry written here. *)
Definition synonym_assign (_keys : list string) (d : gmap string (list string))
    (_key : string) : gmap string (list string) :=
  <[_key := sorted (_set d _keys _key)]> d.

(** [for _key in _keys: ...] *)
Definition synonym_group (d : gmap string (list string)) (_keys : list string)
  : gmap string (list string) :=
  foldl (synonym_assign _keys) d _keys.

(** [for _keys in _rc_synonyms: ...]: one pass over the groups, in the order
    they are declared.  The source has no outer loop around this pass. *)
Definition synonym_pass (d : gmap string (list string)) (synonyms : list (list string))
  : gmap string (list string) :=
  foldl synonym_group d synonyms.

(** [_rc_children] as the module leaves it once it is imported. *)
Definition _rc_children_final (mpl : mpl_defaults) : gmap string (list string) :=
  synonym_pass (_rc_children mpl) _rc_synonyms.

(** *** The migration tables *)

(** [{key: (alternative, version)}] *)
Definition _rc_proplot_removed : gmap string (string * string) :=
  dict_literal [
    ("rgbcycle", ("", "0.6.0"));
    ("geogrid.latmax", ("Please use ax.format(latmax=N) instead.", "0.6.0"));
    ("geogrid.latstep", ("Please use ax.format(latlines=N) instead.", "0.6.0"));
    ("geogrid.lonstep", ("Please use ax.format(lonlines=N) instead.", "0.6.0"));
    ("gridminor.latstep", ("Please use ax.format(latminorlines=N) instead.", "0.6.0"));
    ("gridminor.lonstep", ("Please use ax.format(lonminorlines=N) instead.", "0.6.0"))
  ].

(** [{old_key: (new_key, version)}] *)
Definition _rc_proplot_renamed : gmap string (string * string) :=
  dict_literal [
    ("abc.format", ("abc", "0.5.0"));
    ("align", ("subplots.align", "0.6.0"));
    ("axes.facealpha", ("axes.alpha", "0.6.0"));
    ("geoaxes.edgecolor", ("axes.edgecolor", "0.6.0"));
    ("geoaxes.facealpha", ("axes.alpha", "0.6.0"));
    ("geoaxes.facecolor", ("axes.facecolor", "0.6.0"));
    ("geoaxes.linewidth", ("axes.linewidth", "0.6.0"));
    ("geogrid.alpha", ("grid.alpha", "0.6.0"));
    ("geogrid.color", ("grid.color", "0.6.0"));
    ("geogrid.labels", ("grid.labels", "0.6.0"));
    ("geogrid.labelpad", ("grid.pad", "0.6.0"));
    ("geogrid.labelsize", ("grid.labelsize", "0.6.0"));
    ("geogrid.linestyle", ("grid.linestyle", "0.6.0"));
    ("geogrid.linewidth", ("grid.linewidth", "0.6.0"));
    ("share", ("subplots.share", "0.6.0"));
    ("small", ("font.smallsize", "0.6.0"));
    ("large", ("font.largesize", "0.6.0"));
    ("span", ("subplots.span", "0.6.0"));
    ("tight", ("subplots.tight", "0.6.0"));
    ("axes.formatter.timerotation", ("formatter.timerotation", "0.6.0"));
    ("axes.formatter.zerotrim", ("formatter.zerotrim", "0.6.0"));
    ("abovetop", ("title.above", "0.7.0"));
    ("subplots.pad", ("subplots.outerpad", "0.7.0"));
    ("subplots.axpad", ("subplots.innerpad", "0.7.0"));
    ("subplots.axwidth", ("subplots.refwidth", "0.7.0"));
    ("text.labelsize", ("font.smallsize", "0.8.0"));
    ("text.titlesize", ("font.largesize", "0.8.0"));
    ("alpha", ("axes.alpha", "0.8.0"));
    ("facecolor", ("axes.facecolor", "0.8.0"));
    ("edgecolor", ("meta.color", "0.8.0"));
    ("color", ("meta.color", "0.8.0"));
    ("linewidth", ("meta.width", "0.8.0"));
    ("lut", ("cmap.lut", "0.8.0"));
    ("image.levels", ("cmap.levels", "0.8.0"));
    ("image.inbounds", ("cmap.inbounds", "0.8.0"));
    ("image.discrete", ("cmap.discrete", "0.8.0"));
    ("image.edgefix", ("edgefix", "0.8.0"));
    ("tick.ratio", ("tick.widthratio", "0.8.0"));
    ("grid.ratio", ("grid.widthratio", "0.8.0"));
    ("abc.style", ("abc", "0.8.0"));
    ("grid.loninline", ("grid.inlinelabels", "0.8.0"));
    ("grid.latinline", ("grid.inlinelabels", "0.8.0"));
    ("cmap.edgefix", ("edgefix", "0.9.0"));
    ("basemap", ("geo.backend", "0.10.0"));
    ("inlinefmt", ("inlineformat", "0.10.0"));
    ("cartopy.circular", ("geo.round", "0.10.0"));
    ("cartopy.autoextent", ("geo.extent", "0.10.0"));
    ("colorbar.rasterize", ("colorbar.rasterized", "0.10.0"))
  ].

(** *** Predicates used to state properties of the tables *)

(** No setting is a member of two synonym groups. *)
Fixpoint disjoint_groups (synonyms : list (list string)) : Prop :=
  match synonyms with
  | [] => True
  | _keys :: synonyms' =>
      Forall (λ k, k ∉ mjoin synonyms') _keys ∧ disjoint_groups synonyms'
  end.

#[export] Instance disjoint_groups_dec synonyms : Decision (disjoint_groups synonyms).
Proof. induction synonyms; simpl; apply _. Defined.

(** No setting is listed among its own children. *)
Definition no_self_child (d : gmap string (list string)) : Prop :=
  map_Forall (λ k children, k ∉ children) d.

(** [key in text] on strings: [key] occurs somewhere in [text]. *)
Fixpoint occurs_in (key text : string) : bool :=
  String.prefix key text ||
  match text with
  | EmptyString => false
  | String _ text' => occurs_in key text'
  end.

(** The keys of both migration tables. *)
Definition migrated_keys : gset string :=
  dom _rc_proplot_removed ∪ dom _rc_proplot_renamed.

End Defaults.

(** ** __init__.py *)
Module Internals.

(** The Python values the helpers are called with.  Tuples are included
    because an entry of [options] is a tuple whose items are used as
    dictionary keys. *)
#[warnings="-register-all"]
Inductive pyobj :=
  | PyNone
  | PyStr (s : string)
  | PyInt (n : Z)
  | PyTuple (items : list pyobj).

(** [x is None] *)
Definition is_none (x : pyobj) : bool :=
  match x with PyNone => true | _ => false end.

(** [a == b], the comparison a dict applies to its keys. *)
Fixpoint pyobj_eqb (a b : pyobj) : bool :=
  match a, b with
  | PyNone, PyNone => true
  | PyStr s, PyStr t => bool_decide (s = t)
  | PyInt n, PyInt m => bool_decide (n = m)
  | PyTuple xs, PyTuple ys =>
      (fix all2 (xs ys : list pyobj) : bool :=
         match xs, ys with
         | [], [] => true
         | x :: xs', y :: ys' => pyobj_eqb x y && all2 xs' ys'
         | _, _ => false
         end) xs ys
  | _, _ => false
  end.

(** *** Dictionaries in insertion order *)
Section odict.
Context {K : Type} (eqb : K → K → bool).

(** [d.get(k)] *)
Fixpoint dict_get (d : list (K * pyobj)) (k : K) : option pyobj :=
  match d with
  | [] => None
  | (k', v) :: d' => if eqb k' k then Some v else dict_get d' k
  end.

(** [d[k] = v]: an existing key keeps its position, a new key goes last. *)
Fixpoint dict_set (d : list (K * pyobj)) (k : K) (v : pyobj) : list (K * pyobj) :=
  match d with
  | [] => [(k, v)]
  | (k', v') :: d' =>
      if eqb k' k then (k', v) :: d' else (k', v') :: dict_set d' k v
  end.

(** [del d[k]], doing nothing when [k] is missing. *)
Fixpoint dict_del (d : list (K * pyobj)) (k : K) : list (K * pyobj) :=
  match d with
  | [] => []
  | (k', v') :: d' =>
      if eqb k' k then dict_del d' k else (k', v') :: dict_del d' k
  end.
End odict.

Definition str_eqb (s t : string) : bool := bool_decide (s = t).

(** Keyword dictionaries ([**kwargs]) have [str] keys. *)
Abbreviation kwdict := (list (string * pyobj)).

(** [kwargs.pop(key, None)]: the value and the dictionary left behind.  A
    key that is not a [str] is never found in a keyword dictionary. *)
Definition kwargs_pop (kwargs : kwdict) (key : pyobj) : pyobj * kwdict :=
  match key with
  | PyStr s => (default PyNone (dict_get str_eqb kwargs s), dict_del str_eqb kwargs s)
  | _ => (PyNone, kwargs)
  end.

(** *** Exceptions and warnings *)

Inductive exn :=
  (** [ValueError(f'Expected up to {nopts} positional arguments. Got {nargs}.')] *)
  | ValueError_positional (nopts nargs : nat)
  (** [ValueError('_not_none can only be used with args or kwargs.')] *)
  | ValueError_args_or_kwargs
  (** [keys[0] + '_positional'] where [keys[0]] is not a [str] *)
  | TypeError_concat
  (** [_not_none( **opts)] where a key of [opts] is not a [str] *)
  | TypeError_keywords
  (** [keys[0]] or [args[idx]] out of range *)
  | IndexError.

(** [warnings._warn_proplot(f'Got conflicting or duplicate keyword arguments:
    {kwargs}. Using the first keyword argument.')] *)
Inductive warning :=
  | ConflictingKeywords (kwargs : kwdict).

(** A computation raises or returns, and in both cases has emitted a
    sequence of warnings. *)
Definition M (A : Type) : Type := (exn + A) * list warning.

Definition raise {A} (e : exn) : M A := (inl e, []).
Definition warn (w : warning) : M unit := (inr tt, [w]).

#[export] Instance M_ret : MRet M := λ A a, (inr a, []).
#[export] Instance M_bind : MBind M := λ A B f m,
  match m with
  | (inl e, ws) => (inl e, ws)
  | (inr a, ws) => let '(r, ws') := f a in (r, ws ++ ws')
  end.

Definition raises {A} (m : M A) : Prop := ∃ e, m.1 = inl e.

(** *** _not_none *)

(** [for arg in args: if arg is not None: first = arg; break] *)
Fixpoint first_not_none (args : list pyobj) (first : pyobj) : pyobj :=
  match args with
  | [] => first
  | arg :: args' => if is_none arg then first_not_none args' first else arg
  end.

(** [{name: arg for name, arg in kwargs.items() if arg is not None}] *)
Definition not_none_items (kwargs : kwdict) : kwdict :=
  filter (λ item, is_none item.2 = false) kwargs.

(** [_not_none( *args, default=None, **kwargs)] *)
Definition _not_none (args : list pyobj) (default : pyobj) (kwargs : kwdict) : M pyobj :=
  let first := default in
  if negb (bool_decide (args = [])) && negb (bool_decide (kwargs = [])) then
    raise ValueError_args_or_kwargs
  else if negb (bool_decide (args = [])) then
    mret (first_not_none args first)
  else if negb (bool_decide (kwargs = [])) then
    let first := first_not_none kwargs.*2 first in
    let kwargs := not_none_items kwargs in
    if bool_decide (1 < length kwargs) then
      warn (ConflictingKeywords kwargs);; mret first
    else mret first
  else mret first.

(** The names of a dictionary of keywords, when all of them are [str]. *)
Fixpoint str_keys (opts : list (pyobj * pyobj)) : option kwdict :=
  match opts with
  | [] => Some []
  | (PyStr s, v) :: opts' => kw ← str_keys opts'; Some ((s, v) :: kw)
  | _ => None
  end.

(** The call [_not_none( **opts)].  A key that is not a [str] is a
    [TypeError]; the key ['default'] binds the keyword-only parameter and the
    other keys arrive as [kwargs], in the order of [opts]. *)
Definition _not_none_kw (opts : list (pyobj * pyobj)) : M pyobj :=
  match str_keys opts with
  | None => raise TypeError_keywords
  | Some kw =>
      _not_none [] (default PyNone (dict_get str_eqb kw "default"))
                (dict_del str_eqb kw "default")
  end.

(** *** _kwargs_to_args *)

(** An entry of [options]: a [str], or a tuple of keys. *)
Inductive option_keys :=
  | KeyStr (s : string)
  | KeyTuple (keys : list pyobj).

(** [if isinstance(keys, str): keys = (keys,)] *)
Definition as_tuple (keys : option_keys) : list pyobj :=
  match keys with
  | KeyStr s => [PyStr s]
  | KeyTuple keys => keys
  end.

(** [seq[i]] *)
Definition index (seq : list pyobj) (i : nat) : M pyobj :=
  match seq !! i with
  | Some x => mret x
  | None => raise IndexError
  end.

(** [x + '_positional'] *)
Definition add_positional (x : pyobj) : M pyobj :=
  match x with
  | PyStr s => mret (PyStr (s +:+ "_positional"))
  | _ => raise TypeError_concat
  end.

(** [for key in keys: opts[key] = kwargs.pop(key, None)] *)
Fixpoint pop_keys (keys : list pyobj) (opts : list (pyobj * pyobj)) (kwargs : kwdict)
  : list (pyobj * pyobj) * kwdict :=
  match keys with
  | [] => (opts, kwargs)
  | key :: keys' =>
      let '(v, kwargs') := kwargs_pop kwargs key in
      pop_keys keys' (dict_set pyobj_eqb opts key v) kwargs'
  end.

(** The body of [for idx, keys in enumerate(options)], on the two objects
    it updates: the list [args] and the dictionary [kwargs]. *)
Definition resolve_option (idx : nat) (keys : option_keys) (args : list pyobj)
    (kwargs : kwdict) : M (list pyobj * kwdict) :=
  let keys := as_tuple keys in
  arg ← index args idx;
  opts ← (if is_none arg then mret []
          else
            key0 ← index keys 0;
            name ← add_positional key0;
            mret (dict_set pyobj_eqb [] name arg));
  let '(opts, kwargs) := pop_keys keys opts kwargs in
  v ← _not_none_kw opts;
  mret (<[idx := v]> args, kwargs).

(** [for idx, keys in enumerate(options): ...], entered at index [idx]. *)
Fixpoint resolve_options (idx : nat) (options : list option_keys) (args : list pyobj)
    (kwargs : kwdict) : M (list pyobj * kwdict) :=
  match options with
  | [] => mret (args, kwargs)
  | keys :: options' =>
      st ← resolve_option idx keys args kwargs;
      resolve_options (S idx) options' st.1 st.2
  end.

(** [_kwargs_to_args(options, *args, allow_extra=False, **kwargs)] *)
Definition _kwargs_to_args (options : list option_keys) (args : list pyobj)
    (allow_extra : bool) (kwargs : kwdict) : M (list pyobj * kwdict) :=
  let nargs := length args in
  let nopts := length options in
  if bool_decide (nopts < nargs) && negb allow_extra then
    raise (ValueError_positional nopts nargs)
  else
    let args := args ++ replicate (nopts - nargs) PyNone in
    resolve_options 0 options args kwargs.

(** *** Predicates used to state properties of the helpers *)

Definition is_str (x : pyobj) : bool :=
  match x with PyStr _ => true | _ => false end.

(** An entry of [options] as the callers write it: a name, or a tuple of
    one or more names. *)
Definition well_formed_keys (keys : option_keys) : bool :=
  match keys with
  | KeyStr _ => true
  | KeyTuple keys => negb (bool_decide (keys = [])) && forallb is_str keys
  end.

(** The names among a tuple of keys. *)
Definition names_of (keys : list pyobj) : list string :=
  omap (λ key, match key with PyStr s => Some s | _ => None end) keys.

(** The names an entry of [options] declares. *)
Definition declared_names (keys : option_keys) : list string :=
  names_of (as_tuple keys).

(** The computation fails with the error about positional arguments. *)
Definition raises_positional {A} (m : M A) : Prop :=
  ∃ nopts nargs, m.1 = inl (ValueError_positional nopts nargs).

(** *** _pop_items *)

(** [aliases[key] = value] on the dictionary of the [**aliases], whose
    values are names or tuples of names. *)
Fixpoint aliases_set (aliases : list (pyobj * option_keys)) (key : pyobj)
    (value : option_keys) : list (pyobj * option_keys) :=
  match aliases with
  | [] => [(key, value)]
  | (key', value') :: aliases' =>
      if pyobj_eqb key' key then (key', value) :: aliases'
      else (key', value') :: aliases_set aliases' key value
  end.

(** [aliases.update({key: () for key in keys})]: every positional key
    becomes an entry without aliases; one that was given as a keyword too
    loses its aliases and keeps its place. *)
Definition aliases_update (aliases : list (string * option_keys)) (keys : list pyobj)
  : list (pyobj * option_keys) :=
  foldl (λ d key, aliases_set d key (KeyTuple []))
        ((λ item, (PyStr item.1, item.2)) <$> aliases) keys.

(** [for key, aliases in aliases.items(): ...], on the dictionaries
    [output] and [kwargs] it updates.  [opts] is the dict comprehension
    [{key: kwargs.pop(key, None) for key in (key, *aliases)}]. *)
Fixpoint pop_items_loop (items : list (pyobj * option_keys))
    (output : list (pyobj * pyobj)) (kwargs : kwdict)
  : M (list (pyobj * pyobj) * kwdict) :=
  match items with
  | [] => mret (output, kwargs)
  | (key, aliases) :: items' =>
      let aliases := as_tuple aliases in
      let '(opts, kwargs) := pop_keys (key :: aliases) [] kwargs in
      value ← _not_none_kw opts;
      let output :=
        if is_none value then output else dict_set pyobj_eqb output key value in
      pop_items_loop items' output kwargs
  end.

(** [_pop_items(kwargs, *keys, **aliases)].  The function returns [output]
    and has updated the caller's [kwargs]; both are returned here. *)
Definition _pop_items (kwargs : kwdict) (keys : list pyobj)
    (aliases : list (string * option_keys)) : M (list (pyobj * pyobj) * kwdict) :=
  pop_items_loop (aliases_update aliases keys) [] kwargs.

(** *** _pop_parameters *)

Definition internal_parameters : list string :=
  ["inbounds"; "default_cmap"; "default_discrete"; "plot_contours";
   "plot_lines"; "skip_autolev"; "to_centers"].

(** An item of [*funcs], by the branch it takes: an [inspect.Signature], a
    callable (with the parameter names [inspect.signature] reads from it),
    [None], or anything else. *)
Inductive func :=
  | FuncSignature (parameters : list string)
  | FuncCallable (parameters : list string)
  | FuncNone
  | FuncOther.

(** [RuntimeError(f'Internal error. Invalid function {func!r}.')] *)
Inductive runtime_error :=
  | RuntimeError_invalid_function.

(** [for key in sig.parameters: ...] *)
Fixpoint pop_parameter_keys (ignore_internal : bool) (parameters : list string)
    (output kwargs : kwdict) : kwdict * kwdict :=
  match parameters with
  | [] => (output, kwargs)
  | key :: parameters' =>
      let '(value, kwargs) := kwargs_pop kwargs (PyStr key) in
      if ignore_internal && bool_decide (key ∈ internal_parameters) then
        pop_parameter_keys ignore_internal parameters' output kwargs
      else if negb (is_none value) then
        pop_parameter_keys ignore_internal parameters'
          (dict_set str_eqb output key value) kwargs
      else pop_parameter_keys ignore_internal parameters' output kwargs
  end.

(** [for func in funcs: ...]: the outcome, and [kwargs] as the loop leaves
    it, also when it raises. *)
Fixpoint pop_parameters_loop (ignore_internal : bool) (funcs : list func)
    (output kwargs : kwdict) : (runtime_error + kwdict) * kwdict :=
  match funcs with
  | [] => (inr output, kwargs)
  | FuncSignature parameters :: funcs' | FuncCallable parameters :: funcs' =>
      let '(output, kwargs) :=
        pop_parameter_keys ignore_internal parameters output kwargs in
      pop_parameters_loop ignore_internal funcs' output kwargs
  | FuncNone :: funcs' => pop_parameters_loop ignore_internal funcs' output kwargs
  | FuncOther :: _ => (inl RuntimeError_invalid_function, kwargs)
  end.

(** [_pop_parameters(kwargs, *funcs, ignore_internal=False)] *)
Definition _pop_parameters (kwargs : kwdict) (funcs : list func) (ignore_internal : bool)
  : (runtime_error + kwdict) * kwdict :=
  pop_parameters_loop ignore_internal funcs [] kwargs.

(** The names an entry of the updated [aliases] pops from [kwargs]: the
    key and its aliases. *)
Definition item_names (item : pyobj * option_keys) : list string :=
  names_of (item.1 :: as_tuple item.2).


(** The parameter names of the functions. *)
Definition func_parameters (f : func) : list string :=
  match f with
  | FuncSignature parameters | FuncCallable parameters => parameters
  | _ => []
  end.

#[export] Instance func_eq_dec : EqDecision func.
Proof. solve_decision. Defined.

(** The value [_pop_parameters] takes for a parameter name: the keyword of
    that name, unless it is [None] or the name is an internal parameter
    that is to be ignored. *)
Definition taken_value (ignore_internal : bool) (kwargs : kwdict) (name : string)
  : option pyobj :=
  match dict_get str_eqb kwargs name with
  | Some value =>
      if is_none value || (ignore_internal && bool_decide (name ∈ internal_parameters))
      then None else Some value
  | None => None
  end.

End Internals.

(** * Properties of the synonym pass *)

(** Settle a closed decidable statement by evaluating its decision
    procedure. *)
Ltac by_evaluation := cbv zeta; apply (bool_decide_unpack _); by vm_compute.

Module DefaultsTheory.
Import Defaults.

Section pass.
Implicit Types (d : gmap string (list string)) (G : list string).
Implicit Types (k x : string) (syn : list (list string)).

Lemma elem_of_sorted (s : gset string) x : x ∈ sorted s ↔ x ∈ s.
Proof. unfold sorted. by rewrite merge_sort_Permutation, elem_of_elements. Qed.

Lemma sorted_ascending (s : gset string) : Sorted String.le (sorted s).
Proof. apply (Sorted_merge_sort _). Qed.

Lemma sorted_NoDup (s : gset string) : NoDup (sorted s).
Proof. unfold sorted. rewrite merge_sort_Permutation. apply NoDup_elements. Qed.

Lemma list_to_set_sorted (s : gset string) : list_to_set (sorted s) = s.
Proof. apply set_eq. intros x. by rewrite elem_of_list_to_set, elem_of_sorted. Qed.

Lemma children_get_insert d k l k' :
  children_get (<[k := l]> d) k' = if decide (k = k') then l else children_get d k'.
Proof.
  unfold children_get. rewrite lookup_insert. by repeat case_decide.
Qed.

Lemma elem_of_group_union d G x :
  x ∈ group_union d G ↔ ∃ k, k ∈ G ∧ (x = k ∨ x ∈ children_get d k).
Proof.
  unfold group_union. rewrite elem_of_union_list. split.
  - intros (X & HX & Hx). apply list_elem_of_fmap in HX as (k & -> & Hk).
    exists k. split; [done|]. set_solver.
  - intros (k & Hk & Hx). exists ({[k]} ∪ list_to_set (children_get d k)).
    split; [apply list_elem_of_fmap; eauto | set_solver].
Qed.

(** The union of a group only depends on the entries of its own keys. *)
Lemma group_union_ext d d' G :
  (∀ k, k ∈ G → d' !! k = d !! k) → group_union d' G = group_union d G.
Proof.
  intros Heq. apply set_eq. intros x. rewrite !elem_of_group_union.
  unfold children_get.
  split; intros (k & Hk & Hx); exists k; (split; [done|]).
  - by rewrite <- Heq.
  - by rewrite Heq.
Qed.

(** Writing the entry of a member of the group leaves the union of the
    group as it was: this is why the in-place update inside a group is
    harmless. *)
Lemma group_union_assign d G k :
  k ∈ G → group_union (synonym_assign G d k) G = group_union d G.
Proof.
  intros Hk. apply set_eq. intros x. unfold synonym_assign, _set.
  rewrite !elem_of_group_union. split.
  - intros (k' & Hk' & [-> | Hx]); [exists k'; eauto|].
    rewrite children_get_insert in Hx. case_decide as Heq.
    + apply elem_of_sorted, elem_of_difference in Hx as [Hx _].
      by apply elem_of_group_union in Hx.
    + exists k'; eauto.
  - intros (k' & Hk' & Hx). destruct (decide (x = k)) as [-> | Hne].
    + exists k; eauto.
    + exists k. split; [done|]. right.
      rewrite children_get_insert, decide_True by done.
      apply elem_of_sorted, elem_of_difference. split; [|set_solver].
      apply elem_of_group_union. eauto.
Qed.

Lemma synonym_group_prefix G P : ∀ d,
  (∀ k, k ∈ P → k ∈ G) →
  let d' := foldl (synonym_assign G) d P in
  group_union d' G = group_union d G ∧
  ∀ k, d' !! k =
       if decide (k ∈ P) then Some (sorted (group_union d G ∖ {[k]})) else d !! k.
Proof.
  induction P as [|p P IH]; intros d HP; cbn zeta; cbn [foldl].
  - split; [done|]. intros k. rewrite decide_False; [done|]. apply not_elem_of_nil.
  - assert (p ∈ G) as Hp by (apply HP; left).
    destruct (IH (synonym_assign G d p)) as [HU Hlook].
    { intros k Hk. apply HP. by right. }
    rewrite group_union_assign in HU, Hlook by done.
    split; [done|]. intros k. rewrite Hlook.
    destruct (decide (k ∈ P)) as [HkP | HkP].
    + rewrite decide_True; [done | by right].
    + unfold synonym_assign at 1. rewrite lookup_insert.
      destruct (decide (p = k)) as [-> | Hne].
      * rewrite decide_True; [done | left].
      * rewrite decide_False; [done|]. intros [->|?]%elem_of_cons; done.
Qed.

(** What the inner loop leaves behind. *)
Lemma synonym_group_lookup d G k :
  synonym_group d G !! k =
    if decide (k ∈ G) then Some (sorted (group_union d G ∖ {[k]})) else d !! k.
Proof. apply (synonym_group_prefix G G d). auto. Qed.

Lemma synonym_pass_cons d G syn :
  synonym_pass d (G :: syn) = synonym_pass (synonym_group d G) syn.
Proof. done. Qed.

(** Keys outside every group keep their entry. *)
Lemma synonym_pass_other syn : ∀ d k,
  k ∉ mjoin syn → synonym_pass d syn !! k = d !! k.
Proof.
  induction syn as [|G syn IH]; intros d k Hk; [done|].
  rewrite synonym_pass_cons. simpl in Hk. apply not_elem_of_app in Hk as [HG Hsyn].
  rewrite IH by done. rewrite synonym_group_lookup. by rewrite decide_False.
Qed.


Lemma children_get_synonym_group d G k :
  children_get (synonym_group d G) k =
    if decide (k ∈ G) then sorted (group_union d G ∖ {[k]}) else children_get d k.
Proof.
  unfold children_get at 1. rewrite synonym_group_lookup. by case_decide.
Qed.

Lemma disjoint_groups_cons G syn k :
  disjoint_groups (G :: syn) → k ∈ G → k ∉ mjoin syn.
Proof. intros [HG _] Hk. by eapply Forall_forall in HG. Qed.

(** With disjoint groups, the entry of a group member is computed from
    the table as it was before the pass. *)
Lemma synonym_pass_member syn : ∀ d G k,
  disjoint_groups syn → G ∈ syn → k ∈ G →
  synonym_pass d syn !! k = Some (sorted (group_union d G ∖ {[k]})).
Proof.
  induction syn as [|G0 syn IH]; intros d G k Hdis HG Hk.
  - by apply elem_of_nil in HG.
  - rewrite synonym_pass_cons. apply elem_of_cons in HG as [-> | HG].
    + rewrite synonym_pass_other by eauto using disjoint_groups_cons.
      rewrite synonym_group_lookup. by rewrite decide_True.
    + rewrite (IH _ G) by (done || apply Hdis). do 3 f_equal.
      apply group_union_ext. intros k' Hk'.
      rewrite synonym_group_lookup, decide_False; [done|].
      intros Hk0. eapply disjoint_groups_cons; [done..|].
      apply list_elem_of_join. eauto.
Qed.

Lemma children_get_synonym_pass d syn G k :
  disjoint_groups syn → G ∈ syn → k ∈ G →
  children_get (synonym_pass d syn) k = sorted (group_union d G ∖ {[k]}).
Proof.
  intros. unfold children_get. by erewrite synonym_pass_member.
Qed.

(** With disjoint groups, the pass does not change the union of any
    group. *)
Lemma group_union_synonym_pass d syn G :
  disjoint_groups syn → G ∈ syn →
  group_union (synonym_pass d syn) G = group_union d G.
Proof.
  intros Hdis HG. apply set_eq. intros x. rewrite (elem_of_group_union _ G x). split.
  - intros (k & Hk & [-> | Hx]); [apply elem_of_group_union; eauto|].
    rewrite (children_get_synonym_pass _ _ G) in Hx by done.
    by apply elem_of_sorted, elem_of_difference in Hx as [Hx _].
  - intros Hx. destruct (decide (x ∈ G)) as [HxG | HxG]; [by eauto|].
    pose proof Hx as (k & Hk & _)%elem_of_group_union.
    exists k. split; [done|]. right.
    rewrite (children_get_synonym_pass _ _ G) by done.
    apply elem_of_sorted, elem_of_difference. split; [done|].
    intros Heq%elem_of_singleton. by subst.
Qed.

(** An entry written by the pass never lists its own key, and the pass
    writes the entry of every group member. *)
Lemma synonym_group_no_self d G k :
  k ∈ G ∨ k ∉ children_get d k → k ∉ children_get (synonym_group d G) k.
Proof.
  intros Hk. rewrite children_get_synonym_group. case_decide; [|tauto].
  rewrite elem_of_sorted, elem_of_difference, elem_of_singleton. tauto.
Qed.

Lemma synonym_pass_no_self syn : ∀ d k,
  k ∈ mjoin syn ∨ k ∉ children_get d k → k ∉ children_get (synonym_pass d syn) k.
Proof.
  induction syn as [|G syn IH]; intros d k Hk.
  - destruct Hk as [Hk | Hk]; [by apply elem_of_nil in Hk | done].
  - rewrite synonym_pass_cons. apply IH.
    destruct Hk as [[Hk | Hk]%elem_of_app | Hk]; [|by left|];
      right; apply synonym_group_no_self; auto.
Qed.

End pass.

(** The synonym table of the module declares every setting once. *)
Lemma rc_synonyms_disjoint : disjoint_groups _rc_synonyms.
Proof. by_evaluation. Qed.

(** The children table has no self-reference before the pass, for every
    matplotlib version. *)
Lemma rc_children_no_self mpl : no_self_child (_rc_children mpl).
Proof.
  destruct mpl as [[] []]; by_evaluation.
Qed.

(** Two entries of the final table, for matplotlib >= 3.4. *)
Example rc_children_final_grid_linewidth :
  _rc_children_final (MplDefaults true true) !! "grid.linewidth"
  = Some ["grid.width"; "gridminor.linewidth"].
Proof. by vm_compute. Qed.

Example rc_children_final_tick_labelcolor :
  _rc_children_final (MplDefaults true true) !! "tick.labelcolor"
  = Some ["grid.labelcolor"; "xtick.labelcolor"; "ytick.labelcolor"].
Proof. by vm_compute. Qed.

(** *** Overlapping groups: one pass, in declaration order *)

(** C1, as the code has it: the loop over the synonym groups runs once, in
    declaration order.  For the groups (A, B) then (B, C), with A, B and C
    distinct, the pass makes A a child of C and C a child of B, and leaves
    B a child of A; C is a child of A afterwards exactly when it was a
    declared child of A or of B before the pass. *)
Theorem synonym_pass_overlapping (d : gmap string (list string)) (A B C : string) :
  A ≠ B → B ≠ C → A ≠ C →
  let d' := synonym_pass d [[A; B]; [B; C]] in
  A ∈ children_get d' C ∧
  C ∈ children_get d' B ∧
  B ∈ children_get d' A ∧
  (C ∈ children_get d' A ↔ C ∈ children_get d A ∨ C ∈ children_get d B).
Proof.
  intros HAB HBC HAC d'. subst d'. unfold synonym_pass. cbn [foldl].
  assert (A ∈ children_get (synonym_group d [A; B]) B) as HA.
  { rewrite children_get_synonym_group, decide_True by set_solver.
    apply elem_of_sorted, elem_of_difference. split; [|set_solver].
    apply elem_of_group_union. exists A. set_solver. }
  assert (children_get (synonym_group (synonym_group d [A; B]) [B; C]) A
          = sorted (group_union d [A; B] ∖ {[A]})) as ->.
  { rewrite children_get_synonym_group, decide_False
      by (rewrite !elem_of_cons, elem_of_nil; intros [? | [? | []]]; congruence).
    by rewrite children_get_synonym_group, decide_True by (left). }
  rewrite !(children_get_synonym_group _ [B; C]), !decide_True by set_solver.
  rewrite !elem_of_sorted, !elem_of_difference, !elem_of_group_union.
  split; [|split; [|split]].
  - split; [|set_solver]. exists B. set_solver.
  - split; [|set_solver]. exists C. set_solver.
  - split; [|set_solver]. exists B. set_solver.
  - split.
    + intros [(k & [-> | ->%list_elem_of_singleton]%elem_of_cons & [? | ?]) _];
        done || auto.
    + intros [H | H]; (split; [|set_solver]); [exists A | exists B]; set_solver.
Qed.

Lemma synonym_pass_overlapping_witness :
  let d' := synonym_pass ∅ [["A"; "B"]; ["B"; "C"]] in
  "A" ∈ children_get d' "C" ∧
  "C" ∈ children_get d' "B" ∧
  "B" ∈ children_get d' "A" ∧
  ("C" ∈ children_get d' "A" ↔ "C" ∈ children_get ∅ "A" ∨ "C" ∈ children_get ∅ "B").
Proof. apply (synonym_pass_overlapping ∅ "A" "B" "C"); by_evaluation. Defined.

(** C1 fails as stated: after the groups (A, B) and (B, C) are folded into
    an empty table, C is not a child of A, and the table is not a fixed
    point of the pass. *)
Lemma synonym_pass_not_transitive :
  let syn := [["A"; "B"]; ["B"; "C"]] in
  ¬ ("C" ∈ children_get (synonym_pass ∅ syn) "A" ∧
     "A" ∈ children_get (synonym_pass ∅ syn) "C") ∧
  synonym_pass (synonym_pass ∅ syn) syn ≠ synonym_pass ∅ syn.
Proof. by_evaluation. Qed.

(** *** Idempotence *)

(** C2, as the code has it: when no setting is a member of two synonym
    groups, running the pass on its own output changes nothing. *)
Theorem synonym_pass_idempotent (d : gmap string (list string)) (syn : list (list string)) :
  disjoint_groups syn →
  synonym_pass (synonym_pass d syn) syn = synonym_pass d syn.
Proof.
  intros Hdis. apply map_eq. intros k.
  destruct (decide (k ∈ mjoin syn)) as [Hk | Hk].
  - apply list_elem_of_join in Hk as (G & Hk & HG).
    rewrite !(synonym_pass_member syn _ G k) by done.
    by rewrite group_union_synonym_pass.
  - by rewrite !synonym_pass_other.
Qed.

Lemma synonym_pass_idempotent_witness :
  let d := _rc_children (MplDefaults true true) in
  synonym_pass (synonym_pass d _rc_synonyms) _rc_synonyms = synonym_pass d _rc_synonyms.
Proof. cbv zeta. apply synonym_pass_idempotent. by_evaluation. Defined.

(** C2 fails as stated: with the overlapping groups (A, B) and (B, C), a
    second pass adds C to the children of A. *)
Lemma synonym_pass_not_idempotent :
  let syn := [["A"; "B"]; ["B"; "C"]] in
  let d1 := synonym_pass ∅ syn in
  let d2 := synonym_pass d1 syn in
  d1 !! "A" = Some ["B"] ∧ d2 !! "A" = Some ["B"; "C"] ∧ d2 ≠ d1.
Proof. by_evaluation. Qed.

(** *** Symmetry inside a declared group *)

Lemma synonym_pass_symmetric (d : gmap string (list string)) syn G (A B : string) :
  disjoint_groups syn → G ∈ syn → A ∈ G → B ∈ G → A ≠ B →
  let d' := synonym_pass d syn in
  B ∈ children_get d' A ∧
  A ∈ children_get d' B ∧
  list_to_set (children_get d' A) ∖ {[B]}
    =@{gset string} list_to_set (children_get d' B) ∖ {[A]}.
Proof.
  intros Hdis HG HA HB Hne d'. subst d'.
  rewrite !(children_get_synonym_pass d syn G) by done.
  rewrite !list_to_set_sorted, !elem_of_sorted, !elem_of_difference.
  rewrite !elem_of_group_union. split; [|split].
  - split; [eauto | by rewrite elem_of_singleton].
  - split; [eauto | by rewrite elem_of_singleton].
  - apply set_eq. intros x.
    rewrite !elem_of_difference, !elem_of_singleton. tauto.
Qed.

(** C3: for every group of [_rc_synonyms] and any two distinct members A
    and B of it, after the pass B is a child of A, A is a child of B, and
    the children of A without B are the children of B without A.  This
    holds whatever the children table was before the pass, so for every
    matplotlib version. *)
Theorem rc_synonyms_symmetric (d : gmap string (list string)) (G : list string)
    (A B : string) :
  G ∈ _rc_synonyms → A ∈ G → B ∈ G → A ≠ B →
  let d' := synonym_pass d _rc_synonyms in
  B ∈ children_get d' A ∧
  A ∈ children_get d' B ∧
  list_to_set (children_get d' A) ∖ {[B]}
    =@{gset string} list_to_set (children_get d' B) ∖ {[A]}.
Proof. apply synonym_pass_symmetric, rc_synonyms_disjoint. Qed.

Lemma rc_synonyms_symmetric_witness :
  let d' := _rc_children_final (MplDefaults true true) in
  "grid.labelsize" ∈ children_get d' "tick.labelsize" ∧
  "tick.labelsize" ∈ children_get d' "grid.labelsize" ∧
  list_to_set (children_get d' "tick.labelsize") ∖ {["grid.labelsize"]}
    =@{gset string} list_to_set (children_get d' "grid.labelsize") ∖ {["tick.labelsize"]}.
Proof.
  apply (rc_synonyms_symmetric _ ["tick.labelsize"; "grid.labelsize"]);
    by_evaluation.
Defined.

(** *** No self-reference *)

(** C4: no setting of the final children table is its own child, for every
    matplotlib version; and whatever the table and the synonym groups are,
    the pass drops a self-reference from the entry of every group member:
    it has no error path. *)
Theorem rc_children_final_no_self :
  (∀ mpl k, k ∉ children_get (_rc_children_final mpl) k) ∧
  (∀ (d : gmap string (list string)) (syn : list (list string)) (G : list string) k,
     G ∈ syn → k ∈ G → k ∉ children_get (synonym_pass d syn) k).
Proof.
  split.
  - intros mpl k. apply synonym_pass_no_self. right.
    unfold children_get. destruct (_rc_children mpl !! k) as [l|] eqn:Hl.
    + by apply (rc_children_no_self mpl) in Hl.
    + apply not_elem_of_nil.
  - intros d syn G k HG Hk. apply synonym_pass_no_self. left.
    apply list_elem_of_join. eauto.
Qed.

Lemma rc_children_final_no_self_witness :
  "A" ∉ children_get (synonym_pass {["A" := ["A"; "X"]]} [["A"; "B"]]) "A".
Proof.
  apply (proj2 rc_children_final_no_self _ _ ["A"; "B"]);
    by_evaluation.
Defined.

(** *** Migration tables *)

(** C5: the new key of a renamed setting is a key of neither migration
    table, and no key of either table occurs anywhere in the hint of a
    removed setting. *)
Theorem migration_one_hop :
  (∀ old new version,
     _rc_proplot_renamed !! old = Some (new, version) →
     _rc_proplot_renamed !! new = None ∧ _rc_proplot_removed !! new = None) ∧
  (∀ old hint version key,
     _rc_proplot_removed !! old = Some (hint, version) →
     key ∈ migrated_keys →
     occurs_in key hint = false).
Proof.
  split.
  - intros old new version Hold.
    assert (map_Forall (λ _ e, _rc_proplot_renamed !! e.1 = None ∧
                               _rc_proplot_removed !! e.1 = None)
              _rc_proplot_renamed) as Hall
      by (by_evaluation).
    apply (Hall _ _ Hold).
  - intros old hint version key Hold Hkey.
    assert (map_Forall (λ _ e, set_Forall (λ k, occurs_in k e.1 = false) migrated_keys)
              _rc_proplot_removed) as Hall
      by (by_evaluation).
    apply (Hall _ _ Hold _ Hkey).
Qed.

Lemma migration_one_hop_witness :
  (_rc_proplot_renamed !! "font.smallsize" = None ∧
   _rc_proplot_removed !! "font.smallsize" = None) ∧
  occurs_in "small" "Please use ax.format(latmax=N) instead." = false.
Proof.
  split.
  - apply (proj1 migration_one_hop "small" "font.smallsize" "0.6.0"). by vm_compute.
  - apply (proj2 migration_one_hop "geogrid.latmax" _ "0.6.0" "small"); [by vm_compute|].
    by_evaluation.
Defined.

End DefaultsTheory.

(** * Properties of the argument helpers *)
Module InternalsTheory.
Import Internals.

Section monad.
Context {A B : Type}.
Implicit Types (m : M A) (f : A → M B).

Lemma bind_returns m f a ws :
  m = (inr a, ws) → m ≫= f = ((f a).1, ws ++ (f a).2).
Proof. intros ->. unfold mbind, M_bind. by destruct (f a). Qed.

Lemma bind_intro m f a ws1 r ws2 :
  m = (inr a, ws1) → f a = (r, ws2) → m ≫= f = (r, ws1 ++ ws2).
Proof. intros -> Hf. unfold mbind, M_bind. by rewrite Hf. Qed.

Lemma bind_raises m f e ws : m = (inl e, ws) → m ≫= f = (inl e, ws).
Proof. by intros ->. Qed.

Lemma bind_inr m f b ws :
  m ≫= f = (inr b, ws) →
  ∃ a ws1 ws2, m = (inr a, ws1) ∧ f a = (inr b, ws2) ∧ ws = ws1 ++ ws2.
Proof.
  destruct m as [[e | a] ws1]; [done|]. rewrite (bind_returns _ f a ws1) by done.
  destruct (f a) as [r ws2] eqn:Hf. simpl. intros [= -> <-]. by exists a, ws1, ws2.
Qed.

Lemma bind_inl m f e :
  (m ≫= f).1 = inl e →
  m.1 = inl e ∨ ∃ a ws, m = (inr a, ws) ∧ (f a).1 = inl e.
Proof.
  destruct m as [[e' | a] ws1]; [intros [= ->]; by left|].
  rewrite (bind_returns _ f a ws1) by done. simpl. eauto.
Qed.
End monad.

(** *** _not_none *)

Lemma first_not_none_spec (args : list pyobj) (first : pyobj) :
  (Forall (λ arg, arg = PyNone) args ∧ first_not_none args first = first) ∨
  (∃ pre arg post,
     args = pre ++ arg :: post ∧ Forall (λ arg, arg = PyNone) pre ∧
     arg ≠ PyNone ∧ first_not_none args first = arg).
Proof.
  induction args as [|arg args IH]; simpl; [by left|].
  destruct arg; simpl;
    try (right; eexists [], _, args; split_and!; by eauto).
  destruct IH as [[Hall Heq] | (pre & arg & post & -> & Hpre & Hne & Heq)].
  - left. by split; [constructor|].
  - right. exists (PyNone :: pre), arg, post. split_and!; by eauto.
Qed.

Lemma not_none_items_length (kwargs : kwdict) i j ni vi nj vj :
  i ≠ j →
  kwargs !! i = Some (ni, vi) → kwargs !! j = Some (nj, vj) →
  vi ≠ PyNone → vj ≠ PyNone →
  1 < length (not_none_items kwargs).
Proof.
  unfold not_none_items.
  revert i j. induction kwargs as [|[n v] kwargs IH]; intros i j Hij Hi Hj Hvi Hvj.
  { done. }
  assert (∀ k n' v', kwargs !! k = Some (n', v') → v' ≠ PyNone →
            0 < length (filter (λ item, is_none item.2 = false) kwargs)) as Hone.
  { intros k n' v' Hk Hv'. apply list_elem_of_lookup_2 in Hk.
    assert ((n', v') ∈ filter (λ item, is_none item.2 = false) kwargs) as Hin.
    { apply list_elem_of_filter. split; [|done]. by destruct v'. }
    destruct (filter _ kwargs); [by apply elem_of_nil in Hin | simpl; lia]. }
  destruct i as [|i], j as [|j]; simplify_eq/=.
  - rewrite filter_cons_True by (by destruct vi). simpl.
    pose proof (Hone _ _ _ Hj Hvj). lia.
  - rewrite filter_cons_True by (by destruct vj). simpl.
    pose proof (Hone _ _ _ Hi Hvi). lia.
  - assert (i ≠ j) as Hij' by congruence.
    pose proof (IH i j Hij' Hi Hj Hvi Hvj) as Hlen.
    destruct (decide (is_none v = false)).
    + rewrite filter_cons_True by done. simpl. lia.
    + by rewrite filter_cons_False.
Qed.

(** Without positional arguments [_not_none] returns. *)
Lemma not_none_keywords (first : pyobj) (kwargs : kwdict) :
  _not_none [] first kwargs =
    (inr (first_not_none kwargs.*2 first),
     if bool_decide (1 < length (not_none_items kwargs))
     then [ConflictingKeywords (not_none_items kwargs)] else []).
Proof.
  unfold _not_none. rewrite (bool_decide_true ([] = [])) by done. simpl.
  destruct kwargs as [|item kwargs]; [done|].
  rewrite bool_decide_false by done. simpl negb. cbv iota.
  by case_bool_decide.
Qed.

Example not_none_positional :
  _not_none [PyNone; PyInt 1; PyInt 2] (PyInt 0) [] = mret (PyInt 1).
Proof. reflexivity. Qed.

Example not_none_default :
  _not_none [] (PyInt 0) [("lw", PyNone); ("linewidth", PyNone)] = mret (PyInt 0).
Proof. reflexivity. Qed.

(** *** Keyword dictionaries *)

Lemma dict_get_del (d : kwdict) (k k' : string) :
  dict_get str_eqb (dict_del str_eqb d k) k' =
    if decide (k = k') then None else dict_get str_eqb d k'.
Proof.
  induction d as [|[k0 v] d IH]; simpl; [by case_decide|].
  unfold str_eqb in *. case_bool_decide as H0; simplify_eq/=.
  - rewrite IH. case_decide as H1; [done|]. by rewrite bool_decide_false.
  - case_bool_decide as H1; simplify_eq/=; [by rewrite decide_False|]. done.
Qed.

Lemma kwargs_pop_get (kwargs : kwdict) (key : pyobj) (name : string) :
  dict_get str_eqb (kwargs_pop kwargs key).2 name =
    if decide (name ∈ names_of [key]) then None else dict_get str_eqb kwargs name.
Proof.
  destruct key as [|s| |]; cbn [kwargs_pop snd names_of omap list_omap];
    try (rewrite decide_False; [done | apply not_elem_of_nil]).
  rewrite dict_get_del.
  destruct (decide (s = name)) as [-> | Hne].
  - rewrite decide_True; [done | left].
  - rewrite decide_False; [done|]. by intros ->%list_elem_of_singleton.
Qed.

(** The loop over the keys of one option removes exactly their names from
    [kwargs], whatever it stores in [opts]. *)
Lemma pop_keys_get (keys : list pyobj) : ∀ opts (kwargs : kwdict) (name : string),
  dict_get str_eqb (pop_keys keys opts kwargs).2 name =
    if decide (name ∈ names_of keys) then None else dict_get str_eqb kwargs name.
Proof.
  induction keys as [|key keys IH]; intros opts kwargs name; cbn [pop_keys].
  { rewrite decide_False; [done | apply not_elem_of_nil]. }
  pose proof (kwargs_pop_get kwargs key name) as Hpop.
  destruct (kwargs_pop kwargs key) as [v kwargs1]. rewrite IH.
  cbn [snd] in Hpop. rewrite Hpop.
  assert (name ∈ names_of (key :: keys) ↔ name ∈ names_of [key] ∨ name ∈ names_of keys)
    as Hiff.
  { change (key :: keys) with ([key] ++ keys).
    unfold names_of. rewrite omap_app. apply elem_of_app. }
  repeat case_decide; tauto.
Qed.

(** *** One option *)

Lemma resolve_option_inr idx keys args (kwargs : kwdict) args' kwargs' :
  (resolve_option idx keys args kwargs).1 = inr (args', kwargs') →
  ∃ opts v,
    args' = <[idx := v]> args ∧
    kwargs' = (pop_keys (as_tuple keys) opts kwargs).2.
Proof.
  destruct (resolve_option idx keys args kwargs) as [r ws] eqn:H.
  simpl. intros ->. unfold resolve_option in H.
  apply bind_inr in H as (arg & ? & ? & _ & H & _).
  apply bind_inr in H as (opts & ? & ? & _ & H & _).
  destruct (pop_keys (as_tuple keys) opts kwargs) as [opts' kw'] eqn:Hpop.
  apply bind_inr in H as (v & ? & ? & _ & H & _).
  injection H as <- <- _. exists opts, v. by rewrite Hpop.
Qed.

Lemma not_none_kw_inl opts e :
  (_not_none_kw opts).1 = inl e → e = TypeError_keywords.
Proof.
  unfold _not_none_kw. destruct (str_keys opts) as [kw|]; simpl.
  - by rewrite not_none_keywords.
  - by intros [= <-].
Qed.

(** The only errors of the loop body: a key that is not a name, or an
    empty tuple of keys. *)
Lemma resolve_option_inl idx keys args (kwargs : kwdict) e :
  (resolve_option idx keys args kwargs).1 = inl e →
  e = IndexError ∨ e = TypeError_concat ∨ e = TypeError_keywords.
Proof.
  unfold resolve_option. intros H.
  apply bind_inl in H as [H | (arg & ? & _ & H)].
  { unfold index in H. destruct (args !! idx); simplify_eq/=. by left. }
  apply bind_inl in H as [H | (opts & ? & _ & H)].
  { destruct (is_none arg); [done|].
    apply bind_inl in H as [H | (key0 & ? & _ & H)].
    { unfold index in H. destruct (as_tuple keys !! 0); simplify_eq/=. by left. }
    apply bind_inl in H as [H | (name & ? & _ & H)]; [|done].
    destruct key0; simplify_eq/=; auto. }
  destruct (pop_keys (as_tuple keys) opts kwargs) as [opts' kw'].
  apply bind_inl in H as [H | (v & ? & _ & H)]; [|done].
  apply not_none_kw_inl in H. auto.
Qed.

Lemma str_keys_dict_set opts (s : string) v :
  is_Some (str_keys opts) → is_Some (str_keys (dict_set pyobj_eqb opts (PyStr s) v)).
Proof.
  induction opts as [|[k v'] opts IH]; simpl; [by eauto|].
  destruct k as [|t| |]; try by intros [? [=]].
  destruct (str_keys opts) as [kw|] eqn:Hkw; simpl; [|by intros [? [=]]].
  intros _. case_bool_decide; simpl.
  - rewrite Hkw. by eauto.
  - destruct IH as [kw' ->]; by eauto.
Qed.

Lemma str_keys_pop_keys keys : ∀ opts (kwargs : kwdict),
  forallb is_str keys = true →
  is_Some (str_keys opts) → is_Some (str_keys (pop_keys keys opts kwargs).1).
Proof.
  induction keys as [|key keys IH]; intros opts kwargs Hstr Hopts; [done|].
  cbn [pop_keys]. simpl in Hstr. apply andb_true_iff in Hstr as [Hkey Hstr].
  destruct key as [|s| |]; try done.
  destruct (kwargs_pop kwargs (PyStr s)) as [v kwargs1].
  by apply IH, str_keys_dict_set.
Qed.

(** With well-formed keys the loop body returns, and it writes one item of
    [args]. *)
Lemma resolve_option_returns idx keys args (kwargs : kwdict) :
  well_formed_keys keys = true → idx < length args →
  ∃ v kwargs' ws,
    resolve_option idx keys args kwargs = (inr (<[idx := v]> args, kwargs'), ws).
Proof.
  intros Hwf Hidx. apply lookup_lt_is_Some_2 in Hidx as [arg Harg].
  assert (forallb is_str (as_tuple keys) = true ∧
          ∃ s rest, as_tuple keys = PyStr s :: rest) as [Hstr (s & rest & Hkeys)].
  { destruct keys as [s | [|[|s| |] rest]]; simplify_eq/=; eauto. }
  assert (∃ opts ws,
    (if is_none arg then mret []
     else key0 ← index (as_tuple keys) 0;
          name ← add_positional key0; mret (dict_set pyobj_eqb [] name arg))
    = (inr opts, ws) ∧ is_Some (str_keys opts)) as (opts & ws1 & Hopts & Hsome).
  { destruct (is_none arg); [by exists [], []; eauto|].
    rewrite Hkeys. eexists _, _. split; [reflexivity|]. simpl. eauto. }
  pose proof (str_keys_pop_keys _ opts kwargs Hstr Hsome) as [kw Hkw].
  destruct (pop_keys (as_tuple keys) opts kwargs) as [opts' kwargs'] eqn:Hpop.
  eexists _, kwargs', _. unfold resolve_option.
  eapply bind_intro; [unfold index; by rewrite Harg|]. cbv beta.
  eapply bind_intro; [exact Hopts|]. cbv beta. rewrite Hpop.
  eapply bind_intro; [|reflexivity].
  unfold _not_none_kw. cbn [fst] in Hkw. rewrite Hkw. apply not_none_keywords.
Qed.

(** *** The loop over the options *)

Lemma resolve_options_inl options : ∀ idx args (kwargs : kwdict) e,
  (resolve_options idx options args kwargs).1 = inl e →
  e = IndexError ∨ e = TypeError_concat ∨ e = TypeError_keywords.
Proof.
  induction options as [|keys options IH]; intros idx args kwargs e; [done|].
  cbn [resolve_options]. intros [H | (st & ? & _ & H)]%bind_inl.
  - by eapply resolve_option_inl.
  - by eapply IH.
Qed.

Lemma resolve_options_returns options : ∀ idx args (kwargs : kwdict),
  forallb well_formed_keys options = true →
  (idx + length options ≤ length args)%nat →
  ∃ st ws, resolve_options idx options args kwargs = (inr st, ws).
Proof.
  induction options as [|keys options IH]; intros idx args kwargs Hwf Hlen.
  { by eexists _, _. }
  simpl in Hwf, Hlen. apply andb_true_iff in Hwf as [Hkeys Hwf].
  destruct (resolve_option_returns idx keys args kwargs) as (v & kwargs' & ws & Hstep);
    [done | lia |].
  cbn [resolve_options]. rewrite (bind_returns _ _ _ _ Hstep). cbn [fst snd].
  destruct (IH (S idx) (<[idx := v]> args) kwargs') as (st & ws' & ->);
    [done | rewrite length_insert; lia |].
  by eexists _, _.
Qed.

Lemma resolve_options_get options : ∀ idx args (kwargs : kwdict) args' kwargs' name,
  (resolve_options idx options args kwargs).1 = inr (args', kwargs') →
  dict_get str_eqb kwargs' name =
    if decide (name ∈ options ≫= declared_names) then None
    else dict_get str_eqb kwargs name.
Proof.
  induction options as [|keys options IH]; intros idx args kwargs args' kwargs' name.
  { intros [= _ ->]. rewrite decide_False; [done | apply not_elem_of_nil]. }
  cbn [resolve_options].
  destruct (resolve_option idx keys args kwargs) as [[e | [args1 kwargs1]] ws] eqn:Hstep;
    [done|].
  rewrite (bind_returns _ _ _ _ eq_refl). cbn [fst snd]. intros Hrest.
  rewrite (IH _ _ _ _ _ name Hrest).
  destruct (resolve_option_inr idx keys args kwargs args1 kwargs1) as (opts & v & _ & ->).
  { by rewrite Hstep. }
  rewrite pop_keys_get.
  assert (name ∈ (keys :: options) ≫= declared_names ↔
          name ∈ declared_names keys ∨ name ∈ options ≫= declared_names) as Hiff.
  { rewrite bind_cons. apply elem_of_app. }
  unfold declared_names in *. repeat case_decide; tauto.
Qed.

(** *** _kwargs_to_args: the error about positional arguments *)

Lemma kwargs_to_args_checked options args allow_extra (kwargs : kwdict) :
  ¬ (length options < length args ∧ allow_extra = false) →
  _kwargs_to_args options args allow_extra kwargs =
    resolve_options 0 options
      (args ++ replicate (length options - length args) PyNone) kwargs.
Proof.
  intros Hok. unfold _kwargs_to_args. case_bool_decide; [|done].
  destruct allow_extra; [done|]. tauto.
Qed.

(** C6: the call fails with the error about positional arguments exactly
    when there are more positional arguments than options and
    [allow_extra] is false; and when every entry of [options] is a name or
    a non-empty tuple of names, that is the only way the call can fail. *)
Theorem kwargs_to_args_too_many_positional
    (options : list option_keys) (args : list pyobj) (allow_extra : bool)
    (kwargs : kwdict) :
  let call := _kwargs_to_args options args allow_extra kwargs in
  (raises_positional call ↔ length options < length args ∧ allow_extra = false) ∧
  (length options < length args ∧ allow_extra = false →
     call = raise (ValueError_positional (length options) (length args))) ∧
  (forallb well_formed_keys options = true →
     (raises call ↔ length options < length args ∧ allow_extra = false)).
Proof.
  intros call.
  assert (length options < length args ∧ allow_extra = false →
          call = raise (ValueError_positional (length options) (length args))) as Hraise.
  { intros [Hlen ->]. subst call. unfold _kwargs_to_args.
    by rewrite bool_decide_true. }
  split; [|split; [done|]].
  - split.
    + intros (nopts & nargs & Hcall).
      destruct (decide (length options < length args ∧ allow_extra = false))
        as [|Hok]; [done|].
      subst call. rewrite kwargs_to_args_checked in Hcall by done.
      apply resolve_options_inl in Hcall as [? | [? | ?]]; done.
    + intros Hguard. rewrite (Hraise Hguard). by eexists _, _.
  - intros Hwf. split.
    + intros [e Hcall].
      destruct (decide (length options < length args ∧ allow_extra = false))
        as [|Hok]; [done|].
      subst call. rewrite kwargs_to_args_checked in Hcall by done.
      destruct (resolve_options_returns options 0
                  (args ++ replicate (length options - length args) PyNone) kwargs)
        as (st & ws & Hret); [done | |by rewrite Hret in Hcall].
      rewrite length_app, length_replicate. lia.
    + intros Hguard. rewrite (Hraise Hguard). by eexists.
Qed.

Lemma kwargs_to_args_too_many_positional_witness :
  let call :=
    _kwargs_to_args [KeyTuple [PyStr "color"; PyStr "c"]; KeyStr "width"]
      [PyStr "red"; PyInt 2; PyInt 3] false [] in
  call = raise (ValueError_positional 2 3) ∧ raises call.
Proof.
  pose proof (kwargs_to_args_too_many_positional
                [KeyTuple [PyStr "color"; PyStr "c"]; KeyStr "width"]
                [PyStr "red"; PyInt 2; PyInt 3] false []) as (_ & Herror & Honly).
  assert (length [KeyTuple [PyStr "color"; PyStr "c"]; KeyStr "width"]
            < length [PyStr "red"; PyInt 2; PyInt 3] ∧ false = false) as Hguard
    by (split; [simpl; lia | reflexivity]).
  split; [exact (Herror Hguard) | exact (proj2 (Honly eq_refl) Hguard)].
Defined.

(** *** _kwargs_to_args: the documented example *)

(** C7, as the code has it: with each option written as one flat tuple of
    names, [("color", "c"), ("width", "lw", "linewidth")], the positional
    argument "red" and the keyword linewidth=2 resolve to ["red", 2], no
    keyword is left over and no warning is emitted. *)
Theorem kwargs_to_args_example :
  _kwargs_to_args
    [KeyTuple [PyStr "color"; PyStr "c"];
     KeyTuple [PyStr "width"; PyStr "lw"; PyStr "linewidth"]]
    [PyStr "red"] false [("linewidth", PyInt 2)]
  = (inr ([PyStr "red"; PyInt 2], []), []).
Proof. by vm_compute. Qed.

(** C7 fails as stated: with the options written as pairs of a name and a
    tuple of aliases, the inner tuple becomes a key of the dictionary that
    is passed on as keywords, and the call is a [TypeError]. *)
Lemma kwargs_to_args_nested_example :
  let call :=
    _kwargs_to_args
      [KeyTuple [PyStr "color"; PyTuple [PyStr "c"]];
       KeyTuple [PyStr "width"; PyTuple [PyStr "lw"; PyStr "linewidth"]]]
      [PyStr "red"] false [("linewidth", PyInt 2)] in
  call = raise TypeError_keywords ∧
  ¬ ∃ ws, call = (inr ([PyStr "red"; PyInt 2], []), ws).
Proof. split; [by vm_compute|]. intros [ws H]. vm_compute in H. discriminate H. Qed.

(** A positional value wins over the keywords of its option, which are
    consumed all the same and reported in the warning. *)
Example kwargs_to_args_positional_first :
  _kwargs_to_args [KeyTuple [PyStr "color"; PyStr "c"]] [PyStr "red"] false
    [("c", PyStr "blue"); ("alpha", PyInt 1)]
  = (inr ([PyStr "red"], [("alpha", PyInt 1)]),
     [ConflictingKeywords [("color_positional", PyStr "red"); ("c", PyStr "blue")]]).
Proof. by vm_compute. Qed.

(** An empty tuple of keys fails on [keys[0]] once its positional value is
    not [None]. *)
Example kwargs_to_args_empty_keys :
  _kwargs_to_args [KeyTuple []] [PyInt 1] false [] = raise IndexError.
Proof. by vm_compute. Qed.

(** *** _kwargs_to_args: the keywords left over *)

(** C9: when the call returns, a keyword whose name no option declares is
    still bound to the value it came with, and a keyword whose name some
    option declares is gone, whatever its value was. *)
Theorem kwargs_to_args_leftover
    (options : list option_keys) (args : list pyobj) (allow_extra : bool)
    (kwargs : kwdict) (args' : list pyobj) (kwargs' : kwdict) (name : string) :
  (_kwargs_to_args options args allow_extra kwargs).1 = inr (args', kwargs') →
  (name ∉ options ≫= declared_names →
     dict_get str_eqb kwargs' name = dict_get str_eqb kwargs name) ∧
  (name ∈ options ≫= declared_names → dict_get str_eqb kwargs' name = None).
Proof.
  intros Hcall.
  assert (¬ (length options < length args ∧ allow_extra = false)) as Hok.
  { intros [Hlen ->]. unfold _kwargs_to_args in Hcall.
    by rewrite bool_decide_true in Hcall. }
  rewrite kwargs_to_args_checked in Hcall by done.
  rewrite (resolve_options_get _ _ _ _ _ _ name Hcall).
  split; intros; [by rewrite decide_False | by rewrite decide_True].
Qed.

Lemma kwargs_to_args_leftover_witness :
  let kwargs := [("c", PyNone); ("zorder", PyInt 3); ("color", PyStr "blue")] in
  let kwargs' := [("zorder", PyInt 3)] in
  (dict_get str_eqb kwargs' "zorder" = dict_get str_eqb kwargs "zorder") ∧
  (dict_get str_eqb kwargs' "c" = None).
Proof.
  pose proof (kwargs_to_args_leftover [KeyTuple [PyStr "color"; PyStr "c"]] [] false
    [("c", PyNone); ("zorder", PyInt 3); ("color", PyStr "blue")]
    [PyStr "blue"] [("zorder", PyInt 3)]) as H.
  split.
  - apply (H "zorder"); [reflexivity | by_evaluation].
  - apply (H "c"); [reflexivity | by_evaluation].
Defined.

(** *** _not_none: positional and keyword arguments together *)

(** C10: a call with at least one positional and at least one keyword
    argument raises the [ValueError], whatever the values are. *)
Theorem not_none_args_and_kwargs (args : list pyobj) (first : pyobj) (kwargs : kwdict) :
  args ≠ [] → kwargs ≠ [] →
  _not_none args first kwargs = raise ValueError_args_or_kwargs.
Proof.
  intros Hargs Hkwargs. unfold _not_none.
  by rewrite (bool_decide_false (args = [])), (bool_decide_false (kwargs = [])).
Qed.

Lemma not_none_args_and_kwargs_witness :
  _not_none [PyNone] PyNone [("color", PyNone)] = raise ValueError_args_or_kwargs.
Proof. by apply not_none_args_and_kwargs. Defined.

(** *** Conflicting keywords *)

Lemma ret_bind {A B} (a : A) (f : A → M B) : mret a ≫= f = f a.
Proof. unfold mbind, M_bind, mret, M_ret. by destruct (f a). Qed.

Lemma bind_ret_pair {A B} (m : M (A * B)) : (st ← m; mret (st.1, st.2)) = m.
Proof.
  destruct m as [[e | [a b]] ws]; [done|].
  unfold mbind, M_bind, mret, M_ret. simpl. by rewrite app_nil_r.
Qed.

Section odict_facts.
Context {K : Type} (eqb : K → K → bool).

Lemma dict_set_fresh (d : list (K * pyobj)) k v :
  dict_get eqb d k = None → dict_set eqb d k v = d ++ [(k, v)].
Proof.
  induction d as [|[k' v'] d IH]; simpl; [done|].
  destruct (eqb k' k); [done|]. intros Hd. by rewrite IH.
Qed.

Lemma dict_get_snoc (d : list (K * pyobj)) k v k' :
  dict_get eqb d k' = None → eqb k k' = false →
  dict_get eqb (d ++ [(k, v)]) k' = None.
Proof.
  induction d as [|[k0 v0] d IH]; simpl; [by intros _ ->|].
  destruct (eqb k0 k'); [done | auto].
Qed.
End odict_facts.

Lemma dict_del_absent (d : kwdict) (k : string) :
  k ∉ d.*1 → dict_del str_eqb d k = d.
Proof.
  induction d as [|[k' v] d IH]; simpl; [done|].
  intros [Hne Hd]%not_elem_of_cons. unfold str_eqb at 1.
  rewrite bool_decide_false by done. by rewrite IH.
Qed.

Lemma dict_get_absent (d : kwdict) (k : string) :
  k ∉ d.*1 → dict_get str_eqb d k = None.
Proof.
  induction d as [|[k' v] d IH]; simpl; [done|].
  intros [Hne Hd]%not_elem_of_cons. unfold str_eqb at 1.
  rewrite bool_decide_false by done. by apply IH.
Qed.

(** With distinct names as keys, [opts] receives one entry per name, in
    the order of the tuple, holding the keyword of that name or [None]. *)
Lemma pop_keys_names (names : list string) : ∀ opts (kwargs : kwdict),
  NoDup names →
  (∀ n, n ∈ names → dict_get pyobj_eqb opts (PyStr n) = None) →
  pop_keys (PyStr <$> names) opts kwargs =
    (opts ++ ((λ n, (PyStr n, default PyNone (dict_get str_eqb kwargs n))) <$> names),
     foldl (dict_del str_eqb) kwargs names).
Proof.
  induction names as [|n names IH]; intros opts kwargs Hnd Hfresh.
  { simpl. by rewrite app_nil_r. }
  apply NoDup_cons in Hnd as [Hn Hnd].
  cbn [fmap list_fmap pop_keys kwargs_pop foldl].
  rewrite dict_set_fresh by (apply Hfresh; left).
  rewrite IH; [|done|].
  - rewrite <- app_assoc. cbn [app]. do 3 f_equal.
    apply list_fmap_ext. intros i n' Hn'%list_elem_of_lookup_2.
    rewrite dict_get_del, decide_False; [done|]. by intros ->.
  - intros n' Hn'. apply dict_get_snoc; [apply Hfresh; by right|].
    simpl. apply bool_decide_false. by intros ->.
Qed.

Lemma str_keys_names (names : list string) (f : string → pyobj) :
  str_keys ((λ n, (PyStr n, f n)) <$> names) = Some ((λ n, (n, f n)) <$> names).
Proof. induction names as [|n names IH]; csimpl; [done|]. by rewrite IH. Qed.

(** One option made of distinct names, and no positional argument: the
    keywords reach [_not_none] in the order the option declares them. *)
Lemma kwargs_to_args_declared_order (names : list string) (allow_extra : bool)
    (kwargs : kwdict) :
  NoDup names → "default" ∉ names →
  _kwargs_to_args [KeyTuple (PyStr <$> names)] [] allow_extra kwargs =
    (v ← _not_none [] PyNone
           ((λ n, (n, default PyNone (dict_get str_eqb kwargs n))) <$> names);
     mret ([v], foldl (dict_del str_eqb) kwargs names)).
Proof.
  intros Hnd Hdefault. unfold _kwargs_to_args.
  rewrite bool_decide_false by (simpl; lia).
  cbn [andb length Nat.sub replicate app resolve_options].
  rewrite bind_ret_pair. unfold resolve_option, index.
  cbn [lookup list_lookup as_tuple]. rewrite ret_bind. cbn [is_none]. rewrite ret_bind.
  rewrite pop_keys_names by done. cbn [app].
  unfold _not_none_kw. rewrite str_keys_names.
  assert ("default" ∉ ((λ n, (n, default PyNone (dict_get str_eqb kwargs n))) <$> names).*1)
    as Habsent.
  { by rewrite <- list_fmap_compose, list_fmap_id. }
  by rewrite dict_get_absent, dict_del_absent.
Qed.

(** C8: when two keywords of a call of [_not_none] without positional
    arguments are not [None], the call returns the value of the first
    keyword that is not [None] and emits one warning that lists the
    keywords that are not [None]; it does not raise.  The order is that of
    the keywords as passed, and [_kwargs_to_args] passes them in the order
    the option declares its names, not in the order of the caller. *)
Theorem not_none_conflicting_keywords :
  (∀ (first : pyobj) (kwargs : kwdict) i j ni vi nj vj,
     i ≠ j →
     kwargs !! i = Some (ni, vi) → kwargs !! j = Some (nj, vj) →
     vi ≠ PyNone → vj ≠ PyNone →
     ∃ pre name v post,
       kwargs = pre ++ (name, v) :: post ∧
       Forall (λ item, item.2 = PyNone) pre ∧
       v ≠ PyNone ∧
       _not_none [] first kwargs =
         (inr v, [ConflictingKeywords (not_none_items kwargs)])) ∧
  (∀ (names : list string) (allow_extra : bool) (kwargs : kwdict),
     NoDup names → "default" ∉ names →
     _kwargs_to_args [KeyTuple (PyStr <$> names)] [] allow_extra kwargs =
       (v ← _not_none [] PyNone
              ((λ n, (n, default PyNone (dict_get str_eqb kwargs n))) <$> names);
        mret ([v], foldl (dict_del str_eqb) kwargs names))).
Proof.
  split; [|apply kwargs_to_args_declared_order].
  intros first kwargs i j ni vi nj vj Hij Hi Hj Hvi Hvj.
  rewrite not_none_keywords.
  rewrite bool_decide_true by eauto using not_none_items_length.
  destruct (first_not_none_spec kwargs.*2 first)
    as [[Hall _] | (pre & v & post & Hsplit & Hpre & Hv & ->)].
  - exfalso. apply Hvi. eapply Forall_lookup_1 in Hall; [exact Hall|].
    by rewrite list_lookup_fmap, Hi.
  - apply fmap_app_inv in Hsplit as (pre' & rest & -> & Hrest & ->).
    symmetry in Hrest. apply fmap_cons_inv in Hrest as ([name v'] & post' & -> & -> & ->).
    exists pre', name, v', post'. split_and!; [done | | done | done].
    by apply Forall_fmap in Hpre.
Qed.

Lemma not_none_conflicting_keywords_witness :
  (∃ pre name v post,
     [("c", PyStr "red"); ("color", PyStr "blue")] = pre ++ (name, v) :: post ∧
     Forall (λ item, item.2 = PyNone) pre ∧
     v ≠ PyNone ∧
     _not_none [] PyNone [("c", PyStr "red"); ("color", PyStr "blue")] =
       (inr v, [ConflictingKeywords
                  (not_none_items [("c", PyStr "red"); ("color", PyStr "blue")])])) ∧
  _kwargs_to_args [KeyTuple [PyStr "color"; PyStr "c"]] [] false
    [("c", PyStr "red"); ("color", PyStr "blue")] =
  (inr ([PyStr "blue"], []),
   [ConflictingKeywords [("color", PyStr "blue"); ("c", PyStr "red")]]).
Proof.
  split.
  - apply (proj1 not_none_conflicting_keywords PyNone
             [("c", PyStr "red"); ("color", PyStr "blue")]
             0 1 "c" (PyStr "red") "color" (PyStr "blue")); done.
  - assert (NoDup ["color"; "c"]) as Hnd by by_evaluation.
    assert ("default" ∉ ["color"; "c"]) as Hdefault by by_evaluation.
    etrans; [|by vm_compute].
    exact (proj2 not_none_conflicting_keywords ["color"; "c"] false
             [("c", PyStr "red"); ("color", PyStr "blue")] Hnd Hdefault).
Defined.

End InternalsTheory.

(** * Further properties of the synonym pass *)
Module SynonymPassFacts.
Import Defaults DefaultsTheory.

Implicit Types (d : gmap string (list string)) (G : list string).
Implicit Types (k x : string) (syn : list (list string)).

(** The pass writes the entries of the group members and nothing else: a
    setting that no group names keeps its entry, or keeps having none. *)
Theorem synonym_pass_frame d syn k :
  k ∉ mjoin syn → synonym_pass d syn !! k = d !! k.
Proof. apply synonym_pass_other. Qed.

Lemma synonym_pass_frame_witness :
  synonym_pass {["tick.dir" := ["xtick.direction"]]} [["cmap.lut"; "image.lut"]]
    !! "tick.dir" = Some ["xtick.direction"].
Proof.
  rewrite (synonym_pass_frame _ [["cmap.lut"; "image.lut"]] "tick.dir"); by_evaluation.
Defined.

Lemma dom_synonym_group d G :
  dom (synonym_group d G) = dom d ∪ list_to_set G.
Proof.
  apply set_eq. intros k.
  rewrite elem_of_dom, synonym_group_lookup, elem_of_union, elem_of_dom,
    elem_of_list_to_set.
  case_decide; [|tauto]. split; eauto.
Qed.

(** After the pass the table has an entry for every setting it had one for
    and for every setting named in a group, and for no other. *)
Theorem dom_synonym_pass d syn :
  dom (synonym_pass d syn) = dom d ∪ list_to_set (mjoin syn).
Proof.
  revert d. induction syn as [|G syn IH]; intros d; apply set_eq; intros k.
  - rewrite elem_of_union, elem_of_list_to_set. split; [by left|].
    intros [Hk | Hk]; [done | by apply elem_of_nil in Hk].
  - rewrite synonym_pass_cons, IH, dom_synonym_group.
    rewrite !elem_of_union, !elem_of_list_to_set.
    change (mjoin (G :: syn)) with (G ++ mjoin syn). rewrite elem_of_app. tauto.
Qed.

Lemma synonym_group_sorted d G k :
  (k ∈ G ∨ ∃ s, d !! k = Some (sorted s)) → ∃ s, synonym_group d G !! k = Some (sorted s).
Proof.
  intros Hk. rewrite synonym_group_lookup. case_decide; [by eauto|].
  destruct Hk; done.
Qed.

Lemma synonym_pass_sorted syn : ∀ d k,
  (k ∈ mjoin syn ∨ ∃ s, d !! k = Some (sorted s)) →
  ∃ s, synonym_pass d syn !! k = Some (sorted s).
Proof.
  induction syn as [|G syn IH]; intros d k Hk.
  - destruct Hk as [Hk | Hk]; [by apply elem_of_nil in Hk | done].
  - rewrite synonym_pass_cons. apply IH.
    destruct Hk as [[Hk | Hk]%elem_of_app | Hk]; [|by left|];
      right; apply synonym_group_sorted; auto.
Qed.

(** The entry of every setting named in a group is in ascending order and
    has no duplicate, whether or not the groups overlap. *)
Theorem synonym_pass_entry_sorted d syn k :
  k ∈ mjoin syn →
  ∃ children,
    synonym_pass d syn !! k = Some children ∧
    Sorted String.le children ∧ NoDup children.
Proof.
  intros Hk. destruct (synonym_pass_sorted syn d k) as [s Hs]; [by left|].
  exists (sorted s). auto using sorted_ascending, sorted_NoDup.
Qed.

Lemma synonym_pass_entry_sorted_witness :
  ∃ children,
    synonym_pass {["b" := ["z"; "y"; "z"]]} [["b"; "a"]; ["c"; "b"]] !! "b"
      = Some children ∧
    Sorted String.le children ∧ NoDup children.
Proof. apply synonym_pass_entry_sorted. by_evaluation. Defined.

(** Inside a group neither the order of the names nor a repeated name
    matters: two groups with the same members have the same effect. *)
Theorem synonym_group_members d G G' :
  (∀ k, k ∈ G ↔ k ∈ G') → synonym_group d G = synonym_group d G'.
Proof.
  intros Hsame. apply map_eq. intros k. rewrite !synonym_group_lookup.
  assert (group_union d G = group_union d G') as ->.
  { apply set_eq. intros x. rewrite !elem_of_group_union.
    split; intros (k' & Hk' & Hx); exists k'; (split; [by apply Hsame | done]). }
  destruct (decide (k ∈ G)) as [Hk | Hk].
  - rewrite decide_True; [done | by apply Hsame].
  - rewrite decide_False; [done | by rewrite <- Hsame].
Qed.

Lemma synonym_group_members_witness :
  synonym_group {["a" := ["x"]]} ["a"; "b"]
  = synonym_group {["a" := ["x"]]} ["b"; "a"; "b"].
Proof.
  apply synonym_group_members. intros k. rewrite !elem_of_cons, elem_of_nil. tauto.
Defined.

Lemma synonym_group_grows d G k x :
  x ∈ children_get d k → x ≠ k → x ∈ children_get (synonym_group d G) k.
Proof.
  intros Hx Hne. rewrite children_get_synonym_group. case_decide; [|done].
  rewrite elem_of_sorted, elem_of_difference, elem_of_singleton. split; [|done].
  apply elem_of_group_union. eauto.
Qed.

Lemma synonym_pass_keeps d syn k x :
  x ∈ children_get d k → x ≠ k → x ∈ children_get (synonym_pass d syn) k.
Proof.
  revert d. induction syn as [|G syn IH]; intros d Hx Hne; [done|].
  rewrite synonym_pass_cons. apply IH; [|done]. by apply synonym_group_grows.
Qed.

(** The pass never drops a child: what a setting listed before the pass it
    lists after it, a reference to itself excepted. *)
Theorem synonym_pass_grows d syn k x :
  x ∈ children_get d k → x ≠ k → x ∈ children_get (synonym_pass d syn) k.
Proof. apply synonym_pass_keeps. Qed.

Lemma synonym_pass_grows_witness :
  "ytick.color" ∈ children_get (_rc_children_final (MplDefaults false false)) "meta.color".
Proof. apply synonym_pass_grows; by_evaluation. Defined.

(** A member of a group ends up listing every other member and everything
    the other members listed when their group was reached; this needs no
    assumption on the other groups. *)
Theorem synonym_pass_inherits d syn G (A B x : string) :
  G ∈ syn → A ∈ G → B ∈ G →
  x = B ∨ x ∈ children_get d B →
  x ≠ A →
  x ∈ children_get (synonym_pass d syn) A.
Proof.
  revert d. induction syn as [|G0 syn IH]; intros d HG HA HB Hx Hne.
  { by apply elem_of_nil in HG. }
  rewrite synonym_pass_cons. apply elem_of_cons in HG as [-> | HG].
  - apply synonym_pass_keeps; [|done].
    rewrite children_get_synonym_group, decide_True by done.
    rewrite elem_of_sorted, elem_of_difference, elem_of_singleton. split; [|done].
    apply elem_of_group_union. exists B. split; [done|]. tauto.
  - apply IH; try done.
    destruct Hx as [-> | Hx]; [by left|].
    destruct (decide (x = B)) as [-> | HxB]; [by left|].
    right. by apply synonym_group_grows.
Qed.

Lemma synonym_pass_inherits_witness :
  "gridminor.linewidth"
    ∈ children_get (_rc_children_final (MplDefaults true true)) "grid.width".
Proof.
  apply (synonym_pass_inherits _ _ ["grid.linewidth"; "grid.width"]
           "grid.width" "grid.linewidth"); by_evaluation.
Defined.

Lemma disjoint_groups_Permutation syn syn' :
  syn ≡ₚ syn' → disjoint_groups syn → disjoint_groups syn'.
Proof.
  induction 1 as [|G syn syn' Hperm IH|G G' syn|syn1 syn2 syn3 _ IH1 _ IH2];
    [done | | |by auto].
  - intros [HG Hdis]. split; [|by apply IH].
    eapply Forall_impl; [exact HG|]. intros k Hk. by rewrite <- Hperm.
  - intros [HG' [HG Hdis]]. rewrite Forall_forall in HG, HG'.
    split; [|split; [|done]]; apply Forall_forall; intros k Hk.
    + change (mjoin (G' :: syn)) with (G' ++ mjoin syn).
      intros [Hk' | Hk']%elem_of_app; [|by eapply HG].
      eapply (HG' k Hk'). change (mjoin (G :: syn)) with (G ++ mjoin syn).
      apply elem_of_app. by left.
    + intros Hk'. eapply (HG' k Hk). change (mjoin (G :: syn)) with (G ++ mjoin syn).
      apply elem_of_app. by right.
Qed.

(** When no setting is a member of two groups, the order in which the
    groups are declared does not matter. *)
Theorem synonym_pass_group_order d syn syn' :
  disjoint_groups syn → syn ≡ₚ syn' →
  synonym_pass d syn = synonym_pass d syn'.
Proof.
  intros Hdis Hperm. pose proof (disjoint_groups_Permutation _ _ Hperm Hdis) as Hdis'.
  apply map_eq. intros k. destruct (decide (k ∈ mjoin syn)) as [Hk | Hk].
  - apply list_elem_of_join in Hk as (G & Hk & HG).
    rewrite (synonym_pass_member syn d G k) by done.
    rewrite (synonym_pass_member syn' d G k); [done..|by rewrite <- Hperm|done].
  - rewrite !synonym_pass_other; [done| |done]. by rewrite <- Hperm.
Qed.

Lemma synonym_pass_group_order_witness :
  synonym_pass {["font.smallsize" := ["tick.labelsize"]]}
    [["font.small"; "font.smallsize"]; ["cmap.lut"; "image.lut"]]
  = synonym_pass {["font.smallsize" := ["tick.labelsize"]]}
      [["cmap.lut"; "image.lut"]; ["font.small"; "font.smallsize"]].
Proof. apply synonym_pass_group_order; [by_evaluation | apply perm_swap]. Defined.

End SynonymPassFacts.

(** * Further properties of the argument helpers *)
Module HelpersFacts.
Import Internals InternalsTheory.

(** *** _not_none: what is returned, and when it warns *)

(** When [_not_none] returns, it returns the first positional or keyword
    value that is not [None], and the default when there is none. *)
Theorem not_none_value (args : list pyobj) (first : pyobj) (kwargs : kwdict)
    (v : pyobj) :
  (_not_none args first kwargs).1 = inr v →
  (v = first ∧ Forall (λ x, x = PyNone) (args ++ kwargs.*2)) ∨
  (∃ pre post,
     args ++ kwargs.*2 = pre ++ v :: post ∧
     Forall (λ x, x = PyNone) pre ∧ v ≠ PyNone).
Proof.
  assert (∀ l, first_not_none l first = v →
    (v = first ∧ Forall (λ x, x = PyNone) l) ∨
    (∃ pre post, l = pre ++ v :: post ∧ Forall (λ x, x = PyNone) pre ∧ v ≠ PyNone))
    as Hfirst.
  { intros l <-.
    destruct (first_not_none_spec l first)
      as [[Hall ->] | (pre & x & post & -> & Hpre & Hx & ->)]; [by left|].
    right. by exists pre, post. }
  destruct args as [|arg args].
  - rewrite not_none_keywords. simpl. intros [= <-]. by apply Hfirst.
  - unfold _not_none. rewrite (bool_decide_false (arg :: args = [])) by done.
    destruct kwargs as [|item kwargs]; [|done].
    simpl. intros [= Hv]. rewrite app_nil_r. by apply Hfirst.
Qed.

Lemma not_none_value_witness :
  (PyInt 2 = PyInt 0 ∧ Forall (λ x, x = PyNone) ([PyNone; PyInt 2; PyInt 3] ++ [])) ∨
  (∃ pre post,
     [PyNone; PyInt 2; PyInt 3] ++ [] = pre ++ PyInt 2 :: post ∧
     Forall (λ x, x = PyNone) pre ∧ PyInt 2 ≠ PyNone).
Proof.
  apply (not_none_value [PyNone; PyInt 2; PyInt 3] (PyInt 0) [] (PyInt 2)). reflexivity.
Defined.

Lemma filter_two_indices (kwargs : kwdict) :
  1 < length (not_none_items kwargs) →
  ∃ i j ni vi nj vj,
    i ≠ j ∧ kwargs !! i = Some (ni, vi) ∧ kwargs !! j = Some (nj, vj) ∧
    vi ≠ PyNone ∧ vj ≠ PyNone.
Proof.
  unfold not_none_items. intros Hlen.
  destruct (filter _ kwargs) as [|[ni vi] [|[nj vj] rest]] eqn:Hf; simpl in Hlen; try lia.
  assert (∀ l : kwdict, ∀ x y rest',
            filter (λ item, is_none item.2 = false) l = x :: y :: rest' →
            ∃ i j, i < j ∧ l !! i = Some x ∧ l !! j = Some y) as Hidx.
  { clear. induction l as [|z l IH]; intros x y rest' Hl; [done|].
    rewrite filter_cons in Hl. case_decide as Hz.
    - injection Hl as -> Hl.
      assert (y ∈ l) as [j Hj]%list_elem_of_lookup_1.
      { eapply (list_elem_of_filter (λ item, is_none item.2 = false)).
        rewrite Hl. left. }
      exists 0, (S j). split; [lia | done].
    - destruct (IH _ _ _ Hl) as (i & j & Hij & Hi & Hj).
      exists (S i), (S j). split; [lia | done]. }
  destruct (Hidx _ _ _ _ Hf) as (i & j & Hij & Hi & Hj).
  assert ((ni, vi) ∈ filter (λ item, is_none item.2 = false) kwargs) as Hvi
    by (rewrite Hf; left).
  assert ((nj, vj) ∈ filter (λ item, is_none item.2 = false) kwargs) as Hvj
    by (rewrite Hf; right; left).
  apply list_elem_of_filter in Hvi as [Hvi _], Hvj as [Hvj _].
  exists i, j, ni, vi, nj, vj. split_and!; [lia | done | done | |].
  - by intros ->.
  - by intros ->.
Qed.

(** [_not_none] warns only about two keywords that are both not [None]:
    positional values never cause a warning, and a call whose keywords
    hold at most one value that is not [None] emits none. *)
Theorem not_none_quiet (args : list pyobj) (first : pyobj) (kwargs : kwdict) :
  (args ≠ [] ∨
   ∀ i j ni vi nj vj,
     kwargs !! i = Some (ni, vi) → kwargs !! j = Some (nj, vj) →
     vi ≠ PyNone → vj ≠ PyNone → i = j) →
  (_not_none args first kwargs).2 = [].
Proof.
  intros Hone. destruct args as [|arg args].
  - destruct Hone as [|Hone]; [done|].
    rewrite not_none_keywords. simpl. case_bool_decide as Hlen; [|done].
    destruct (filter_two_indices kwargs Hlen)
      as (i & j & ni & vi & nj & vj & Hij & Hi & Hj & Hvi & Hvj).
    destruct Hij. eauto.
  - unfold _not_none. rewrite (bool_decide_false (arg :: args = [])) by done.
    by destruct kwargs.
Qed.

Lemma not_none_quiet_witness :
  (_not_none [] PyNone [("lw", PyNone); ("linewidth", PyInt 2)]).2 = [].
Proof.
  apply not_none_quiet. right. intros [|[|i]] [|[|j]] ni vi nj vj Hi Hj Hvi Hvj;
    simplify_eq/=; done.
Defined.

(** *** _kwargs_to_args: the list that is returned *)

Lemma resolve_options_args options : ∀ idx args (kwargs : kwdict) args' kwargs',
  (resolve_options idx options args kwargs).1 = inr (args', kwargs') →
  length args' = length args ∧
  ∀ i, (i < idx ∨ idx + length options ≤ i)%nat → args' !! i = args !! i.
Proof.
  induction options as [|keys options IH]; intros idx args kwargs args' kwargs'.
  { by intros [= -> _]. }
  cbn [resolve_options].
  destruct (resolve_option idx keys args kwargs) as [[e | [args1 kwargs1]] ws] eqn:Hstep;
    [done|].
  rewrite (bind_returns _ _ _ _ eq_refl). cbn [fst snd]. intros Hrest.
  destruct (resolve_option_inr idx keys args kwargs args1 kwargs1) as (opts & v & -> & _).
  { by rewrite Hstep. }
  destruct (IH _ _ _ _ _ Hrest) as [Hlen Hout].
  rewrite length_insert in Hlen. split; [done|].
  intros i Hi. simpl in Hi. rewrite Hout by lia.
  apply list_lookup_insert_ne. lia.
Qed.

(** The list that is returned is as long as the longer of the positional
    arguments and the options. *)
Theorem kwargs_to_args_length (options : list option_keys) (args : list pyobj)
    (allow_extra : bool) (kwargs : kwdict) (args' : list pyobj) (kwargs' : kwdict) :
  (_kwargs_to_args options args allow_extra kwargs).1 = inr (args', kwargs') →
  length args' = length args `max` length options.
Proof.
  intros Hcall.
  assert (¬ (length options < length args ∧ allow_extra = false)) as Hok.
  { intros [Hlen ->]. unfold _kwargs_to_args in Hcall.
    by rewrite bool_decide_true in Hcall. }
  rewrite kwargs_to_args_checked in Hcall by done.
  apply resolve_options_args in Hcall as [-> _].
  rewrite length_app, length_replicate. lia.
Qed.

Lemma kwargs_to_args_length_witness :
  length [PyStr "red"; PyNone; PyInt 2] = length [PyStr "red"] `max` 3.
Proof.
  apply (kwargs_to_args_length [KeyStr "color"; KeyStr "alpha"; KeyStr "lw"]
           [PyStr "red"] false [("lw", PyInt 2)] _ []).
  reflexivity.
Defined.

(** With [allow_extra] the positional arguments beyond the options come
    back unchanged, at the positions they had. *)
Theorem kwargs_to_args_extra (options : list option_keys) (args : list pyobj)
    (allow_extra : bool) (kwargs : kwdict) (args' : list pyobj) (kwargs' : kwdict)
    (i : nat) :
  (_kwargs_to_args options args allow_extra kwargs).1 = inr (args', kwargs') →
  (length options ≤ i)%nat →
  args' !! i = args !! i.
Proof.
  intros Hcall Hi.
  assert (¬ (length options < length args ∧ allow_extra = false)) as Hok.
  { intros [Hlen ->]. unfold _kwargs_to_args in Hcall.
    by rewrite bool_decide_true in Hcall. }
  rewrite kwargs_to_args_checked in Hcall by done.
  apply resolve_options_args in Hcall as [_ ->]; [|lia].
  destruct (decide (i < length args)) as [Hlt | Hge].
  - by rewrite lookup_app_l.
  - rewrite lookup_app_r by lia. rewrite (lookup_ge_None_2 args) by lia.
    apply lookup_ge_None_2. rewrite length_replicate. lia.
Qed.

Lemma kwargs_to_args_extra_witness :
  [PyStr "red"; PyInt 7; PyInt 8] !! 2 = [PyNone; PyInt 7; PyInt 8] !! 2.
Proof.
  apply (kwargs_to_args_extra [KeyStr "color"] [PyNone; PyInt 7; PyInt 8] true
           [("color", PyStr "red")] _ [] 2); [reflexivity | simpl; lia].
Defined.

(** *** _kwargs_to_args: the keywords that are returned, in order *)

Lemma dict_del_filter (d : kwdict) (k : string) :
  dict_del str_eqb d k = filter (λ item, item.1 ≠ k) d.
Proof.
  induction d as [|[k' v] d IH]; [done|]. cbn [dict_del]. unfold str_eqb at 1.
  rewrite filter_cons. case_bool_decide; simplify_eq/=.
  - by rewrite decide_False by (by intros []).
  - rewrite decide_True by done. by rewrite IH.
Qed.

Lemma filter_nothing_named (kwargs : kwdict) :
  filter (λ item, item.1 ∉ @nil string) kwargs = kwargs.
Proof.
  induction kwargs as [|item kwargs IH]; [done|].
  rewrite filter_cons_True by apply not_elem_of_nil. by rewrite IH.
Qed.

Lemma pop_keys_filter (keys : list pyobj) : ∀ opts (kwargs : kwdict),
  (pop_keys keys opts kwargs).2 = filter (λ item, item.1 ∉ names_of keys) kwargs.
Proof.
  induction keys as [|key keys IH]; intros opts kwargs; cbn [pop_keys snd].
  { by rewrite filter_nothing_named. }
  destruct (kwargs_pop kwargs key) as [v kwargs1] eqn:Hpop. rewrite IH.
  assert (kwargs1 = filter (λ item, item.1 ∉ names_of [key]) kwargs) as ->.
  { destruct key as [|s| |]; simplify_eq/=; try by rewrite filter_nothing_named.
    rewrite dict_del_filter. apply list_filter_iff. intros item.
    by rewrite list_elem_of_singleton. }
  rewrite list_filter_filter. apply list_filter_iff. intros item.
  change (key :: keys) with ([key] ++ keys). unfold names_of. rewrite omap_app.
  rewrite elem_of_app. tauto.
Qed.

Lemma resolve_options_filter options : ∀ idx args (kwargs : kwdict) args' kwargs',
  (resolve_options idx options args kwargs).1 = inr (args', kwargs') →
  kwargs' = filter (λ item, item.1 ∉ options ≫= declared_names) kwargs.
Proof.
  induction options as [|keys options IH]; intros idx args kwargs args' kwargs'.
  { intros [= _ <-]. by rewrite filter_nothing_named. }
  cbn [resolve_options].
  destruct (resolve_option idx keys args kwargs) as [[e | [args1 kwargs1]] ws] eqn:Hstep;
    [done|].
  rewrite (bind_returns _ _ _ _ eq_refl). cbn [fst snd]. intros Hrest.
  rewrite (IH _ _ _ _ _ Hrest).
  destruct (resolve_option_inr idx keys args kwargs args1 kwargs1) as (opts & v & _ & ->).
  { by rewrite Hstep. }
  rewrite pop_keys_filter, list_filter_filter. apply list_filter_iff. intros item.
  rewrite bind_cons, elem_of_app. unfold declared_names. tauto.
Qed.

(** The keywords that are returned are the keywords that came in, without
    those named by an option, and in the order they came in. *)
Theorem kwargs_to_args_leftover_order (options : list option_keys) (args : list pyobj)
    (allow_extra : bool) (kwargs : kwdict) (args' : list pyobj) (kwargs' : kwdict) :
  (_kwargs_to_args options args allow_extra kwargs).1 = inr (args', kwargs') →
  kwargs' = filter (λ item, item.1 ∉ options ≫= declared_names) kwargs.
Proof.
  intros Hcall.
  assert (¬ (length options < length args ∧ allow_extra = false)) as Hok.
  { intros [Hlen ->]. unfold _kwargs_to_args in Hcall.
    by rewrite bool_decide_true in Hcall. }
  rewrite kwargs_to_args_checked in Hcall by done.
  by eapply resolve_options_filter.
Qed.

Lemma kwargs_to_args_leftover_order_witness :
  [("zorder", PyInt 3); ("alpha", PyInt 1)]
  = filter (λ item, item.1 ∉ [KeyTuple [PyStr "color"; PyStr "c"]] ≫= declared_names)
      [("zorder", PyInt 3); ("c", PyNone); ("alpha", PyInt 1); ("color", PyStr "blue")].
Proof.
  apply (kwargs_to_args_leftover_order [KeyTuple [PyStr "color"; PyStr "c"]] [] false
           _ [PyStr "blue"]).
  reflexivity.
Defined.

(** *** _kwargs_to_args: one item of the list that is returned *)

(** The state in which the loop reaches the option at index [j]. *)
Lemma resolve_options_at options : ∀ idx args (kwargs : kwdict) args' kwargs' j keys,
  (resolve_options idx options args kwargs).1 = inr (args', kwargs') →
  options !! j = Some keys →
  ∃ args_j kwargs_j st,
    (resolve_option (idx + j) keys args_j kwargs_j).1 = inr st ∧
    args_j !! (idx + j) = args !! (idx + j) ∧
    kwargs_j = filter (λ item, item.1 ∉ take j options ≫= declared_names) kwargs ∧
    args' !! (idx + j) = st.1 !! (idx + j).
Proof.
  induction options as [|keys0 options IH];
    intros idx args kwargs args' kwargs' j keys; [done|].
  cbn [resolve_options].
  destruct (resolve_option idx keys0 args kwargs) as [[e | [args1 kwargs1]] ws] eqn:Hstep;
    [done|].
  rewrite (bind_returns _ _ _ _ eq_refl). cbn [fst snd]. intros Hrest Hj.
  destruct j as [|j].
  - injection Hj as ->. rewrite Nat.add_0_r. exists args, kwargs, (args1, kwargs1).
    rewrite Hstep. split_and!; [done | done | |].
    + by rewrite filter_nothing_named.
    + apply resolve_options_args in Hrest as [_ Hout]. apply Hout. lia.
  - destruct (resolve_option_inr idx keys0 args kwargs args1 kwargs1)
      as (opts & v & -> & ->); [by rewrite Hstep|].
    destruct (IH _ _ _ _ _ j keys Hrest Hj) as (args_j & kwargs_j & st & Hst & Ha & Hk & Hr).
    replace (idx + S j) with (S idx + j) by lia.
    exists args_j, kwargs_j, st. split_and!; [done | | | done].
    + rewrite Ha. apply list_lookup_insert_ne. lia.
    + rewrite Hk, pop_keys_filter, list_filter_filter. apply list_filter_iff.
      intros item. cbn [take]. rewrite bind_cons, elem_of_app.
      unfold declared_names. tauto.
Qed.

Lemma pyobj_eqb_str_ne (n : string) (key : pyobj) :
  key ≠ PyStr n → pyobj_eqb (PyStr n) key = false.
Proof. destruct key; try done. intros Hne. apply bool_decide_false. congruence. Qed.

Lemma pop_keys_head (keys : list pyobj) : ∀ key0 a opts (kwargs : kwdict),
  Forall (λ key, pyobj_eqb key0 key = false) keys →
  ∃ opts', (pop_keys keys ((key0, a) :: opts) kwargs).1 = (key0, a) :: opts'.
Proof.
  induction keys as [|key keys IH]; intros key0 a opts kwargs Hne; [by eexists|].
  apply Forall_cons in Hne as [Hkey Hne]. cbn [pop_keys].
  destruct (kwargs_pop kwargs key) as [v kwargs1]. cbn [dict_set]. rewrite Hkey.
  by apply IH.
Qed.

Lemma length_append (s t : string) :
  String.length (s +:+ t) = String.length s + String.length t.
Proof. induction s as [|c s IH]; simpl; [done|]. by rewrite IH. Qed.

Lemma positional_name_ne_default (s : string) : s +:+ "_positional" ≠ "default".
Proof.
  intros H%(f_equal String.length). rewrite length_append in H. simpl in H. lia.
Qed.

Lemma not_none_kw_head (name : string) (a : pyobj) opts v ws :
  a ≠ PyNone → name ≠ "default" →
  _not_none_kw ((PyStr name, a) :: opts) = (inr v, ws) → v = a.
Proof.
  intros Ha Hname. unfold _not_none_kw. cbn [str_keys].
  destruct (str_keys opts) as [kw|]; [|done]. cbn [mbind option_bind].
  cbn [dict_get dict_del]. unfold str_eqb at 1 3.
  rewrite !bool_decide_false by done. rewrite not_none_keywords.
  intros [= <- _]. by destruct a.
Qed.

Lemma resolve_option_positional idx keys args (kwargs : kwdict) a st :
  args !! idx = Some a → a ≠ PyNone →
  (∀ s, as_tuple keys !! 0 = Some (PyStr s) →
        PyStr (s +:+ "_positional") ∉ as_tuple keys) →
  (resolve_option idx keys args kwargs).1 = inr st →
  st.1 !! idx = Some a.
Proof.
  intros Harg Ha Hfree.
  destruct (resolve_option idx keys args kwargs) as [r ws] eqn:H.
  simpl. intros ->. unfold resolve_option in H.
  apply bind_inr in H as (arg & ? & ? & Hidx & H & _).
  unfold index in Hidx. rewrite Harg in Hidx. injection Hidx as <- _.
  apply bind_inr in H as (opts0 & ? & ? & Hopts0 & H & _).
  assert (is_none a = false) as Hnone by (by destruct a). rewrite Hnone in Hopts0.
  apply bind_inr in Hopts0 as (key0 & ? & ? & Hkey0 & Hopts0 & _).
  apply bind_inr in Hopts0 as (name & ? & ? & Hname & Hopts0 & _).
  unfold index in Hkey0. destruct (as_tuple keys !! 0) as [key0'|] eqn:Hhead; [|done].
  injection Hkey0 as -> _. destruct key0 as [|s| |]; try done.
  injection Hname as <- _. injection Hopts0 as <- _. cbn [dict_set] in H.
  destruct (pop_keys_head (as_tuple keys) (PyStr (s +:+ "_positional")) a [] kwargs)
    as [opts' Hopts].
  { apply Forall_forall. intros key Hkey. apply pyobj_eqb_str_ne. intros ->.
    by apply (Hfree s). }
  destruct (pop_keys (as_tuple keys) _ kwargs) as [opts kwargs1]. simpl in Hopts. subst opts.
  apply bind_inr in H as (v & ? & ? & Hv & H & _).
  apply not_none_kw_head in Hv as ->; [|done|apply positional_name_ne_default].
  injection H as <- _. cbn [fst]. apply list_lookup_insert_eq.
  by eapply lookup_lt_Some.
Qed.

(** Positional arguments have first priority: a positional value that is
    not [None] is returned at its position, whatever the keywords are,
    unless the option itself lists the reserved name of its positional
    value among its keys. *)
Theorem kwargs_to_args_positional_priority (options : list option_keys)
    (args : list pyobj) (allow_extra : bool) (kwargs : kwdict)
    (args' : list pyobj) (kwargs' : kwdict) (idx : nat) (keys : option_keys)
    (a : pyobj) :
  (_kwargs_to_args options args allow_extra kwargs).1 = inr (args', kwargs') →
  options !! idx = Some keys →
  args !! idx = Some a → a ≠ PyNone →
  (∀ s, as_tuple keys !! 0 = Some (PyStr s) →
        PyStr (s +:+ "_positional") ∉ as_tuple keys) →
  args' !! idx = Some a.
Proof.
  intros Hcall Hkeys Harg Ha Hfree.
  assert (¬ (length options < length args ∧ allow_extra = false)) as Hok.
  { intros [Hlen ->]. unfold _kwargs_to_args in Hcall.
    by rewrite bool_decide_true in Hcall. }
  rewrite kwargs_to_args_checked in Hcall by done.
  destruct (resolve_options_at _ _ _ _ _ _ idx keys Hcall Hkeys)
    as (args_j & kwargs_j & st & Hst & Hargs_j & _ & Hresult).
  cbn [Nat.add] in *. rewrite Hresult. eapply resolve_option_positional; [|done..].
  rewrite Hargs_j. by apply lookup_app_l_Some.
Qed.

Lemma kwargs_to_args_positional_priority_witness :
  [PyStr "red"; PyNone] !! 0 = Some (PyStr "red").
Proof.
  apply (kwargs_to_args_positional_priority
           [KeyTuple [PyStr "color"; PyStr "c"]; KeyStr "lw"] [PyStr "red"] false
           [("c", PyStr "blue"); ("color", PyStr "green")] _ [] 0
           (KeyTuple [PyStr "color"; PyStr "c"]) (PyStr "red"));
    [reflexivity | reflexivity | reflexivity | done |].
  intros s [= <-]. cbn [as_tuple]. rewrite !elem_of_cons, elem_of_nil.
  intros [[=] | [[=] | []]].
Defined.

Lemma dict_get_filter_names (d : kwdict) (names : list string) (n : string) :
  dict_get str_eqb (filter (λ item, item.1 ∉ names) d) n =
    if decide (n ∈ names) then None else dict_get str_eqb d n.
Proof.
  induction d as [|[k v] d IH]; [by case_decide|].
  rewrite filter_cons. cbn [fst dict_get]. unfold str_eqb at 2.
  destruct (decide (k ∉ names)) as [Hk | Hk].
  - cbn [dict_get]. unfold str_eqb at 1. rewrite IH.
    case_bool_decide as Heq; [|done]. subst. by rewrite decide_False.
  - rewrite IH. case_decide; [done|]. rewrite bool_decide_false; [done|].
    intros ->. apply Hk. done.
Qed.

Lemma dict_set_all_none {K} (eqb : K → K → bool) (d : list (K * pyobj)) k :
  Forall (λ item, item.2 = PyNone) d →
  Forall (λ item, item.2 = PyNone) (dict_set eqb d k PyNone).
Proof.
  induction d as [|[k' v'] d IH]; intros Hd; cbn [dict_set].
  - by repeat constructor.
  - apply Forall_cons in Hd as [Hv Hd]. destruct (eqb k' k); constructor; auto.
Qed.

Lemma pop_keys_all_none (keys : list pyobj) : ∀ opts (kwargs : kwdict),
  Forall (λ item, item.2 = PyNone) opts →
  (∀ n v, n ∈ names_of keys → dict_get str_eqb kwargs n = Some v → v = PyNone) →
  Forall (λ item, item.2 = PyNone) (pop_keys keys opts kwargs).1.
Proof.
  induction keys as [|key keys IH]; intros opts kwargs Hopts Hkw; [done|].
  cbn [pop_keys].
  assert (∀ n, n ∈ names_of [key] ∨ n ∈ names_of keys → n ∈ names_of (key :: keys))
    as Hin.
  { intros n. change (key :: keys) with ([key] ++ keys). unfold names_of.
    rewrite omap_app, elem_of_app. tauto. }
  pose proof (kwargs_pop_get kwargs key) as Hget.
  assert ((kwargs_pop kwargs key).1 = PyNone) as Hv.
  { destruct key as [|s| |]; try done. cbn [kwargs_pop fst].
    destruct (dict_get str_eqb kwargs s) as [v|] eqn:Hs; [|done].
    simpl. apply (Hkw s); [|done]. apply Hin. left. unfold names_of. simpl. left. }
  destruct (kwargs_pop kwargs key) as [v kwargs1]. cbn [fst snd] in Hv, Hget. subst v.
  apply IH; [by apply dict_set_all_none|].
  intros n v Hn. rewrite Hget. case_decide; [done|]. apply Hkw. auto.
Qed.

Lemma str_keys_values opts (kw : kwdict) :
  str_keys opts = Some kw → kw.*2 = opts.*2.
Proof.
  revert kw. induction opts as [|[k v] opts IH]; intros kw; [by intros [= <-]|].
  cbn [str_keys]. destruct k as [|s| |]; try done.
  destruct (str_keys opts) as [kw'|]; [|done]. intros [= <-]. csimpl. by rewrite (IH kw').
Qed.

Lemma dict_get_elem_of (d : kwdict) (k : string) v :
  dict_get str_eqb d k = Some v → v ∈ d.*2.
Proof.
  induction d as [|[k' v'] d IH]; [done|]. cbn [dict_get]. csimpl.
  destruct (str_eqb k' k); [intros [= ->]; left | right; auto].
Qed.

Lemma not_none_kw_all_none opts v ws :
  Forall (λ item, item.2 = PyNone) opts →
  _not_none_kw opts = (inr v, ws) → v = PyNone.
Proof.
  intros Hopts. unfold _not_none_kw.
  destruct (str_keys opts) as [kw|] eqn:Hkw; [|done].
  assert (Forall (λ x, x = PyNone) kw.*2) as Hvalues.
  { rewrite (str_keys_values _ _ Hkw). by apply Forall_fmap. }
  rewrite not_none_keywords. intros [= <- _].
  assert (default PyNone (dict_get str_eqb kw "default") = PyNone) as ->.
  { destruct (dict_get str_eqb kw "default") as [x|] eqn:Hx; [|done].
    apply dict_get_elem_of in Hx. by eapply Forall_forall in Hvalues. }
  destruct (first_not_none_spec (dict_del str_eqb kw "default").*2 PyNone)
    as [[_ ->] | (pre & x & post & Hsplit & _ & Hx & _)]; [done|].
  destruct Hx. rewrite dict_del_filter in Hsplit.
  assert (x ∈ (filter (λ item, item.1 ≠ "default") kw).*2) as Hin.
  { rewrite Hsplit. apply elem_of_app. right. left. }
  apply list_elem_of_fmap in Hin as (item & -> & [_ Hitem]%list_elem_of_filter).
  eapply Forall_forall in Hvalues; [exact Hvalues|].
  apply list_elem_of_fmap. eauto.
Qed.

Lemma resolve_option_none idx keys args (kwargs : kwdict) st :
  args !! idx = Some PyNone →
  (∀ n v, n ∈ declared_names keys → dict_get str_eqb kwargs n = Some v → v = PyNone) →
  (resolve_option idx keys args kwargs).1 = inr st →
  st.1 !! idx = Some PyNone.
Proof.
  intros Harg Hkw.
  destruct (resolve_option idx keys args kwargs) as [r ws] eqn:H.
  simpl. intros ->. unfold resolve_option in H.
  apply bind_inr in H as (arg & ? & ? & Hidx & H & _).
  unfold index in Hidx. rewrite Harg in Hidx. injection Hidx as <- _.
  apply bind_inr in H as (opts0 & ? & ? & Hopts0 & H & _).
  injection Hopts0 as <- _.
  pose proof (pop_keys_all_none (as_tuple keys) [] kwargs (Forall_nil_2 _) Hkw) as Hopts.
  destruct (pop_keys (as_tuple keys) [] kwargs) as [opts kwargs1].
  apply bind_inr in H as (v & ? & ? & Hv & H & _).
  apply not_none_kw_all_none in Hv as ->; [|done].
  injection H as <- _. cbn [fst]. apply list_lookup_insert_eq.
  by eapply lookup_lt_Some.
Qed.

(** Missing positional arguments are filled with [None]: an option
    without a positional value, none of whose names is a keyword with a
    value, resolves to [None]. *)
Theorem kwargs_to_args_fill_none (options : list option_keys)
    (args : list pyobj) (allow_extra : bool) (kwargs : kwdict)
    (args' : list pyobj) (kwargs' : kwdict) (idx : nat) (keys : option_keys) :
  (_kwargs_to_args options args allow_extra kwargs).1 = inr (args', kwargs') →
  options !! idx = Some keys →
  (∀ a, args !! idx = Some a → a = PyNone) →
  (∀ n v, n ∈ declared_names keys → dict_get str_eqb kwargs n = Some v → v = PyNone) →
  args' !! idx = Some PyNone.
Proof.
  intros Hcall Hkeys Harg Hkw.
  assert (¬ (length options < length args ∧ allow_extra = false)) as Hok.
  { intros [Hlen ->]. unfold _kwargs_to_args in Hcall.
    by rewrite bool_decide_true in Hcall. }
  rewrite kwargs_to_args_checked in Hcall by done.
  destruct (resolve_options_at _ _ _ _ _ _ idx keys Hcall Hkeys)
    as (args_j & kwargs_j & st & Hst & Hargs_j & -> & Hresult).
  cbn [Nat.add] in *. rewrite Hresult. eapply resolve_option_none; [| |done].
  - rewrite Hargs_j. apply lookup_lt_Some in Hkeys.
    destruct (args !! idx) as [a|] eqn:Ha.
    + rewrite (lookup_app_l_Some _ _ _ _ Ha). f_equal. by apply Harg.
    + apply lookup_ge_None_1 in Ha. rewrite lookup_app_r by done.
      apply lookup_replicate_2. lia.
  - intros n v Hn. rewrite dict_get_filter_names. case_decide; [done|]. by apply Hkw.
Qed.

Lemma kwargs_to_args_fill_none_witness :
  [PyStr "red"; PyNone] !! 1 = Some PyNone.
Proof.
  apply (kwargs_to_args_fill_none [KeyStr "color"; KeyTuple [PyStr "lw"; PyStr "linewidth"]]
           [PyStr "red"] false [("alpha", PyInt 1); ("lw", PyNone)] _ [("alpha", PyInt 1)]
           1 (KeyTuple [PyStr "lw"; PyStr "linewidth"])); [reflexivity | reflexivity | done |].
  intros n v. unfold declared_names, names_of. cbn [as_tuple omap list_omap].
  rewrite !elem_of_cons, elem_of_nil. intros [-> | [-> | []]]; simpl; congruence.
Defined.

(** *** _pop_items *)

Lemma pop_items_loop_cons key aliases items output (kwargs : kwdict) :
  pop_items_loop ((key, aliases) :: items) output kwargs =
    (value ← _not_none_kw (pop_keys (key :: as_tuple aliases) [] kwargs).1;
     pop_items_loop items
       (if is_none value then output else dict_set pyobj_eqb output key value)
       (pop_keys (key :: as_tuple aliases) [] kwargs).2).
Proof.
  cbn [pop_items_loop]. by destruct (pop_keys (key :: as_tuple aliases) [] kwargs).
Qed.

Lemma pop_items_loop_filter items : ∀ output (kwargs : kwdict) output' kwargs',
  (pop_items_loop items output kwargs).1 = inr (output', kwargs') →
  kwargs' = filter (λ item, item.1 ∉ items ≫= item_names) kwargs.
Proof.
  induction items as [|[key aliases] items IH]; intros output kwargs output' kwargs'.
  { intros [= _ <-]. by rewrite filter_nothing_named. }
  rewrite pop_items_loop_cons.
  destruct (_not_none_kw (pop_keys (key :: as_tuple aliases) [] kwargs).1)
    as [[e | value] ws] eqn:Hvalue; [done|].
  rewrite (bind_returns _ _ _ _ eq_refl). cbn [fst]. intros Hrest.
  rewrite (IH _ _ _ _ Hrest), pop_keys_filter, list_filter_filter.
  apply list_filter_iff. intros item. rewrite bind_cons, elem_of_app.
  unfold item_names at 2. cbn [fst snd]. tauto.
Qed.

(** When [_pop_items] returns, the caller's [kwargs] has lost the keys and
    aliases of the updated alias table and nothing else, and the keywords
    that stay keep their order. *)
Theorem pop_items_leftover (kwargs : kwdict) (keys : list pyobj)
    (aliases : list (string * option_keys)) output (kwargs' : kwdict) :
  (_pop_items kwargs keys aliases).1 = inr (output, kwargs') →
  kwargs' = filter (λ item, item.1 ∉ aliases_update aliases keys ≫= item_names) kwargs.
Proof. apply pop_items_loop_filter. Qed.

Lemma pop_items_leftover_witness :
  [("c", PyStr "blue"); ("zorder", PyInt 1)]
  = filter (λ item, item.1 ∉ aliases_update [("color", KeyStr "c")] [PyStr "color"]
                               ≫= item_names)
      [("c", PyStr "blue"); ("color", PyStr "red"); ("zorder", PyInt 1)].
Proof.
  apply (pop_items_leftover _ [PyStr "color"] [("color", KeyStr "c")]
           [(PyStr "color", PyStr "red")]).
  reflexivity.
Defined.

Lemma dict_set_entries {K} (eqb : K → K → bool) (d : list (K * pyobj)) k v
    (P : K → Prop) :
  v ≠ PyNone → P k →
  Forall (λ e, P e.1 ∧ e.2 ≠ PyNone) d →
  Forall (λ e, P e.1 ∧ e.2 ≠ PyNone) (dict_set eqb d k v).
Proof.
  intros Hv Hk. induction d as [|[k' v'] d IH]; intros Hd; cbn [dict_set].
  - by repeat constructor.
  - apply Forall_cons in Hd as [[Hk' Hv'] Hd].
    destruct (eqb k' k); constructor; auto.
Qed.

Lemma pop_items_loop_output items (P : pyobj → Prop) :
  ∀ output (kwargs : kwdict) output' kwargs',
  Forall (λ item, P item.1) items →
  Forall (λ e, P e.1 ∧ e.2 ≠ PyNone) output →
  (pop_items_loop items output kwargs).1 = inr (output', kwargs') →
  Forall (λ e, P e.1 ∧ e.2 ≠ PyNone) output'.
Proof.
  induction items as [|[key aliases] items IH];
    intros output kwargs output' kwargs' Hitems Houtput.
  { by intros [= <- _]. }
  apply Forall_cons in Hitems as [Hkey Hitems]. rewrite pop_items_loop_cons.
  destruct (_not_none_kw (pop_keys (key :: as_tuple aliases) [] kwargs).1)
    as [[e | value] ws] eqn:Hvalue; [done|].
  rewrite (bind_returns _ _ _ _ eq_refl). cbn [fst]. apply IH; [done|].
  destruct (is_none value) eqn:Hnone; [done|].
  apply dict_set_entries; [|done..]. by intros ->.
Qed.

(** No value that [_pop_items] returns is [None], and every key it returns
    is a key of the updated alias table: one of the positional keys or of
    the keyword names, never an alias. *)
Theorem pop_items_output (kwargs : kwdict) (keys : list pyobj)
    (aliases : list (string * option_keys)) output (kwargs' : kwdict) key v :
  (_pop_items kwargs keys aliases).1 = inr (output, kwargs') →
  (key, v) ∈ output →
  v ≠ PyNone ∧ key ∈ (aliases_update aliases keys).*1.
Proof.
  intros Hcall Hin.
  pose proof (pop_items_loop_output (aliases_update aliases keys)
                (λ k, k ∈ (aliases_update aliases keys).*1) [] kwargs output kwargs')
    as Hall.
  eapply Forall_forall in Hall as [Hkey Hv]; [| | |exact Hcall|exact Hin]; [done| |done].
  apply Forall_forall. intros item Hitem. apply list_elem_of_fmap. eauto.
Qed.

Lemma pop_items_output_witness :
  PyStr "red" ≠ PyNone ∧
  PyStr "color" ∈ (aliases_update [("color", KeyStr "c")] []).*1.
Proof.
  apply (pop_items_output [("c", PyStr "red"); ("lw", PyNone)] []
           [("color", KeyStr "c")] [(PyStr "color", PyStr "red")]
           [("lw", PyNone)]); [reflexivity | left].
Defined.

(** A key takes priority over its aliases, and the aliases over each
    other in the order they are written: for one entry of distinct names,
    the value returned under the key is the first of the keywords key,
    alias 1, alias 2, ... that is not [None], and there is no entry when
    all are [None] or missing. *)
Theorem pop_items_declared_order (kwargs : kwdict) (key : string)
    (aliases : option_keys) (names : list string) :
  as_tuple aliases = PyStr <$> names →
  NoDup (key :: names) → "default" ∉ key :: names →
  _pop_items kwargs [] [(key, aliases)] =
    (v ← _not_none [] PyNone
           ((λ n, (n, default PyNone (dict_get str_eqb kwargs n))) <$> key :: names);
     mret (if is_none v then [] else [(PyStr key, v)],
           foldl (dict_del str_eqb) kwargs (key :: names))).
Proof.
  intros Haliases Hnd Hdefault. unfold _pop_items, aliases_update.
  cbn [fmap list_fmap foldl fst snd]. rewrite pop_items_loop_cons, Haliases.
  change (PyStr key :: (PyStr <$> names)) with (PyStr <$> key :: names).
  rewrite pop_keys_names by done. cbn [app fst snd pop_items_loop].
  unfold _not_none_kw. rewrite str_keys_names.
  assert ("default" ∉ ((λ n, (n, default PyNone (dict_get str_eqb kwargs n)))
                          <$> key :: names).*1) as Habsent.
  { by rewrite <- list_fmap_compose, list_fmap_id. }
  rewrite dict_get_absent, dict_del_absent by done. cbn [default].
  destruct (_not_none [] PyNone _) as [[e | v] ws]; [done|].
  unfold mbind, M_bind, mret, M_ret. by destruct (is_none v).
Qed.

Lemma pop_items_declared_order_witness :
  _pop_items [("lw", PyInt 1); ("linewidth", PyInt 2)] []
    [("linewidth", KeyTuple [PyStr "lw"])]
  = (inr ([(PyStr "linewidth", PyInt 2)], []),
     [ConflictingKeywords [("linewidth", PyInt 2); ("lw", PyInt 1)]]).
Proof.
  assert (NoDup ["linewidth"; "lw"]) as Hnd by by_evaluation.
  assert ("default" ∉ ["linewidth"; "lw"]) as Hdefault by by_evaluation.
  etrans; [|by vm_compute].
  exact (pop_items_declared_order [("lw", PyInt 1); ("linewidth", PyInt 2)]
           "linewidth" (KeyTuple [PyStr "lw"]) ["lw"] eq_refl Hnd Hdefault).
Defined.

(** A key that is declared as its own alias loses its value: the second
    pop of the same name finds nothing and overwrites the first. *)
Theorem pop_items_own_alias (kwargs : kwdict) (key : string) :
  _pop_items kwargs [] [(key, KeyStr key)] = mret ([], dict_del str_eqb kwargs key).
Proof.
  unfold _pop_items, aliases_update. cbn [fmap list_fmap foldl fst snd].
  rewrite pop_items_loop_cons. cbn [as_tuple pop_keys kwargs_pop dict_set fst snd].
  rewrite dict_get_del, decide_True by done. cbn [default pyobj_eqb].
  rewrite bool_decide_true by done.
  assert (dict_del str_eqb (dict_del str_eqb kwargs key) key
          = dict_del str_eqb kwargs key) as ->.
  { rewrite !dict_del_filter, list_filter_filter. apply list_filter_iff. tauto. }
  unfold _not_none_kw. cbn [str_keys mbind option_bind dict_get dict_del].
  unfold str_eqb. case_bool_decide; cbn [default]; by rewrite not_none_keywords.
Qed.







(** *** _pop_parameters *)

Lemma dict_get_set (d : kwdict) (k k' : string) v :
  dict_get str_eqb (dict_set str_eqb d k v) k' =
    if decide (k = k') then Some v else dict_get str_eqb d k'.
Proof.
  induction d as [|[k0 v0] d IH]; cbn [dict_set dict_get]; unfold str_eqb in *.
  - case_bool_decide; by case_decide.
  - destruct (decide (k0 = k)) as [-> | Hne].
    + rewrite bool_decide_true by done. cbn [dict_get].
      case_bool_decide; by case_decide.
    + rewrite bool_decide_false by done. cbn [dict_get].
      case_bool_decide; [|done]. subst. by rewrite decide_False.
Qed.

Lemma pop_parameter_keys_leftover ignore_internal parameters :
  ∀ output (kwargs : kwdict),
  (pop_parameter_keys ignore_internal parameters output kwargs).2 =
    filter (λ item, item.1 ∉ parameters) kwargs.
Proof.
  induction parameters as [|key parameters IH]; intros output kwargs;
    cbn [pop_parameter_keys kwargs_pop snd].
  { by rewrite filter_nothing_named. }
  assert (filter (λ item, item.1 ∉ key :: parameters) kwargs
          = filter (λ item, item.1 ∉ parameters) (dict_del str_eqb kwargs key)) as ->.
  { rewrite dict_del_filter, list_filter_filter. apply list_filter_iff. intros item.
    rewrite not_elem_of_cons. tauto. }
  by repeat case_match.
Qed.

Lemma taken_value_del ignore_internal (kwargs : kwdict) key name :
  taken_value ignore_internal (dict_del str_eqb kwargs key) name =
    if decide (key = name) then None else taken_value ignore_internal kwargs name.
Proof. unfold taken_value. rewrite dict_get_del. by case_decide. Qed.

Lemma pop_parameter_keys_output ignore_internal parameters :
  ∀ output (kwargs : kwdict) name,
  dict_get str_eqb (pop_parameter_keys ignore_internal parameters output kwargs).1 name =
    if decide (name ∈ parameters)
    then match taken_value ignore_internal kwargs name with
         | Some value => Some value
         | None => dict_get str_eqb output name
         end
    else dict_get str_eqb output name.
Proof.
  induction parameters as [|key parameters IH]; intros output kwargs name.
  { rewrite decide_False; [done | apply not_elem_of_nil]. }
  cbn [pop_parameter_keys kwargs_pop].
  set (value := default PyNone (dict_get str_eqb kwargs key)).
  set (output1 :=
    if ignore_internal && bool_decide (key ∈ internal_parameters) then output
    else if negb (is_none value) then dict_set str_eqb output key value else output).
  assert (pop_parameter_keys ignore_internal parameters output1
            (dict_del str_eqb kwargs key) =
          (if ignore_internal && bool_decide (key ∈ internal_parameters)
           then pop_parameter_keys ignore_internal parameters output
                  (dict_del str_eqb kwargs key)
           else if negb (is_none value)
                then pop_parameter_keys ignore_internal parameters
                       (dict_set str_eqb output key value) (dict_del str_eqb kwargs key)
                else pop_parameter_keys ignore_internal parameters output
                       (dict_del str_eqb kwargs key))) as <-.
  { subst output1. by repeat case_match. }
  rewrite IH, taken_value_del.
  assert (dict_get str_eqb output1 name =
          if decide (key = name)
          then match taken_value ignore_internal kwargs name with
               | Some value => Some value
               | None => dict_get str_eqb output name
               end
          else dict_get str_eqb output name) as ->.
  { subst output1 value. unfold taken_value.
    destruct (decide (key = name)) as [-> | Hne].
    - destruct (dict_get str_eqb kwargs name) as [v|]; simpl.
      + rewrite orb_comm.
        destruct (ignore_internal && bool_decide (name ∈ internal_parameters));
          simpl; [done|].
        destruct (is_none v); simpl; [done|].
        by rewrite dict_get_set, decide_True.
      + by destruct (ignore_internal && bool_decide (name ∈ internal_parameters)).
    - destruct (ignore_internal && bool_decide (key ∈ internal_parameters)); [done|].
      destruct (negb (is_none _)); [|done]. by rewrite dict_get_set, decide_False. }
  destruct (decide (key = name)) as [-> | Hne].
  - rewrite (decide_True (P := name ∈ name :: parameters)) by left.
    by case_decide.
  - destruct (decide (name ∈ parameters)) as [Hin | Hin].
    + rewrite decide_True; [done | by right].
    + rewrite decide_False; [done|]. intros [->|?]%elem_of_cons; done.
Qed.

Lemma pop_parameter_keys_app ignore_internal ps1 ps2 : ∀ output (kwargs : kwdict),
  pop_parameter_keys ignore_internal (ps1 ++ ps2) output kwargs =
    pop_parameter_keys ignore_internal ps2
      (pop_parameter_keys ignore_internal ps1 output kwargs).1
      (pop_parameter_keys ignore_internal ps1 output kwargs).2.
Proof.
  induction ps1 as [|key ps1 IH]; intros output kwargs; [done|].
  cbn [app pop_parameter_keys kwargs_pop]. by repeat case_match.
Qed.

Lemma pop_parameters_loop_valid ignore_internal funcs : ∀ output (kwargs : kwdict),
  FuncOther ∉ funcs →
  pop_parameters_loop ignore_internal funcs output kwargs =
    (inr (pop_parameter_keys ignore_internal (funcs ≫= func_parameters) output kwargs).1,
     (pop_parameter_keys ignore_internal (funcs ≫= func_parameters) output kwargs).2).
Proof.
  induction funcs as [|f funcs IH]; intros output kwargs Hvalid; [done|].
  apply not_elem_of_cons in Hvalid as [Hf Hvalid].
  rewrite bind_cons, pop_parameter_keys_app.
  destruct f as [ps | ps | |]; cbn [pop_parameters_loop func_parameters]; [| | |done].
  - destruct (pop_parameter_keys ignore_internal ps output kwargs). by apply IH.
  - destruct (pop_parameter_keys ignore_internal ps output kwargs). by apply IH.
  - by apply IH.
Qed.

Lemma pop_parameters_loop_inr ignore_internal funcs : ∀ output (kwargs : kwdict) output',
  (pop_parameters_loop ignore_internal funcs output kwargs).1 = inr output' →
  FuncOther ∉ funcs.
Proof.
  induction funcs as [|f funcs IH]; intros output kwargs output' Hret.
  { apply not_elem_of_nil. }
  apply not_elem_of_cons.
  destruct f as [ps | ps | |]; cbn [pop_parameters_loop] in Hret; [| | |done];
    (split; [done|]); try destruct (pop_parameter_keys ignore_internal ps output kwargs);
    by eapply IH.
Qed.






(** What is returned: a name is bound to a value exactly when it is a
    parameter of one of the functions, the keyword of that name had this
    value, the value is not [None], and the name is not an internal
    parameter that is to be ignored. *)
Theorem pop_parameters_output (kwargs : kwdict) (funcs : list func)
    (ignore_internal : bool) (output : kwdict) (name : string) (value : pyobj) :
  (_pop_parameters kwargs funcs ignore_internal).1 = inr output →
  dict_get str_eqb output name = Some value ↔
    name ∈ funcs ≫= func_parameters ∧
    dict_get str_eqb kwargs name = Some value ∧
    value ≠ PyNone ∧
    ¬ (ignore_internal = true ∧ name ∈ internal_parameters).
Proof.
  intros Hret. unfold _pop_parameters in Hret.
  pose proof (pop_parameters_loop_inr _ _ _ _ _ Hret) as Hvalid.
  rewrite pop_parameters_loop_valid in Hret by done. injection Hret as <-.
  rewrite pop_parameter_keys_output. unfold taken_value. cbn [dict_get].
  destruct (decide (name ∈ funcs ≫= func_parameters)) as [Hin | Hin];
    [|intuition congruence].
  destruct (dict_get str_eqb kwargs name) as [v|]; [|intuition congruence].
  destruct ignore_internal; cbn [andb].
  - case_bool_decide; destruct v; simpl; intuition congruence.
  - destruct v; simpl; intuition congruence.
Qed.

Lemma pop_parameters_output_witness :
  dict_get str_eqb [("vmax", PyInt 1)] "vmax" = Some (PyInt 1) ↔
    "vmax" ∈ [FuncSignature ["vmin"; "vmax"; "inbounds"]] ≫= func_parameters ∧
    dict_get str_eqb [("vmin", PyNone); ("inbounds", PyInt 0); ("vmax", PyInt 1)] "vmax"
      = Some (PyInt 1) ∧
    PyInt 1 ≠ PyNone ∧
    ¬ (true = true ∧ "vmax" ∈ internal_parameters).
Proof.
  apply (pop_parameters_output
           [("vmin", PyNone); ("inbounds", PyInt 0); ("vmax", PyInt 1)]
           [FuncSignature ["vmin"; "vmax"; "inbounds"]] true).
  reflexivity.
Defined.



(** Without [ignore_internal] no value is lost: a keyword whose value is
    not [None] is afterwards either in what is returned or still in the
    caller's [kwargs], with the same value, and never in both. *)
Theorem pop_parameters_conserves (kwargs : kwdict) (funcs : list func)
    (output kwargs' : kwdict) (name : string) (value : pyobj) :
  _pop_parameters kwargs funcs false = (inr output, kwargs') →
  dict_get str_eqb kwargs name = Some value → value ≠ PyNone →
  (dict_get str_eqb output name = Some value ∧ dict_get str_eqb kwargs' name = None) ∨
  (dict_get str_eqb output name = None ∧ dict_get str_eqb kwargs' name = Some value).
Proof.
  intros Hcall Hname Hvalue.
  assert (FuncOther ∉ funcs) as Hvalid.
  { eapply (pop_parameters_loop_inr false funcs [] kwargs output).
    unfold _pop_parameters in Hcall. by rewrite Hcall. }
  unfold _pop_parameters in Hcall. rewrite pop_parameters_loop_valid in Hcall by done.
  injection Hcall as <- <-.
  rewrite pop_parameter_keys_leftover, dict_get_filter_names, pop_parameter_keys_output.
  unfold taken_value. rewrite Hname.
  assert (is_none value = false) as -> by (by destruct value). cbn [orb andb].
  case_decide; [by left | by right].
Qed.

Lemma pop_parameters_conserves_witness :
  (dict_get str_eqb [("a", PyInt 1)] "z" = Some (PyInt 0) ∧
   dict_get str_eqb [("z", PyInt 0)] "z" = None) ∨
  (dict_get str_eqb [("a", PyInt 1)] "z" = None ∧
   dict_get str_eqb [("z", PyInt 0)] "z" = Some (PyInt 0)).
Proof.
  apply (pop_parameters_conserves [("a", PyInt 1); ("b", PyNone); ("z", PyInt 0)]
           [FuncCallable ["a"; "b"]]); [reflexivity | reflexivity | done].
Defined.

End HelpersFacts.
